(** * x-note documentation pipeline: block parser, critical-CSS publisher,
      export post-processor and locale path resolver

    Shallow embedding of the dumi plugin ([.dumi/theme/plugin.ts]) and of the
    inline head script of [.dumirc.ts].

    JavaScript strings are sequences of UTF-16 code units; they are modelled
    as [list N], one number per code unit.  All the string primitives the
    source calls ([startsWith], [indexOf], [replace], [split], [join],
    [trim], [slice], regular-expression [test]/[replace]) are written out on
    that representation. *)

From Stdlib Require Import ZArith NArith Ascii String List Bool Lia.
From stdpp Require Import base option list gmap sets strings pretty.

Set Default Proof Using "Type".
Local Open Scope Z_scope.

(** ** Part I.  Definitions *)

(** *** JavaScript string primitives *)

Abbreviation jsstring := (list N).

Module JS.

(** An ASCII literal as a JavaScript string. *)
Definition js (s : string) : jsstring :=
  map N_of_ascii (list_ascii_of_string s).

(** Strict equality [===] on strings. *)
Definition eqb (a b : jsstring) : bool := bool_decide (a = b).

(** [s.startsWith(pat)] *)
Fixpoint startsWith (s pat : jsstring) {struct pat} : bool :=
  match pat with
  | [] => true
  | c :: pat' =>
      match s with
      | [] => false
      | d :: s' => N.eqb c d && startsWith s' pat'
      end
  end.

(** Position of the first occurrence of [pat] in [s], if any. *)
Fixpoint search (s pat : jsstring) : option nat :=
  if startsWith s pat then Some O
  else match s with
       | [] => None
       | _ :: s' => S <$> search s' pat
       end.

(** [s.indexOf(pat)]: the position, or [-1]. *)
Definition indexOf (s pat : jsstring) : Z :=
  match search s pat with
  | Some i => Z.of_nat i
  | None => -1
  end.

(** [s.includes(pat)] *)
Definition includes (s pat : jsstring) : bool :=
  bool_decide (is_Some (search s pat)).

(** [s.length] *)
Definition length (s : jsstring) : Z := Z.of_nat (List.length s).

(** [s.slice(0, n)] for a non-negative [n]. *)
Definition slice0 (s : jsstring) (n : nat) : jsstring := take n s.

(** The replacement text of [String.prototype.replace] when the pattern is a
    string (no captures): [$$] is a dollar sign, [$&] the matched text,
    [$`] the text before the match and [$'] the text after it; every other
    dollar sign stands for itself. *)
Fixpoint getSubstitution (matched before after rep : jsstring) : jsstring :=
  match rep with
  | [] => []
  | c :: rep' =>
      if N.eqb c 36 then
        match rep' with
        | [] => [c]
        | d :: rep'' =>
            if N.eqb d 36 then 36%N :: getSubstitution matched before after rep''
            else if N.eqb d 38 then matched ++ getSubstitution matched before after rep''
            else if N.eqb d 96 then before ++ getSubstitution matched before after rep''
            else if N.eqb d 39 then after ++ getSubstitution matched before after rep''
            else c :: getSubstitution matched before after rep'
        end
      else c :: getSubstitution matched before after rep'
  end.

(** [s.replace(pat, rep)] with a string pattern: only the first occurrence
    is replaced; without an occurrence the string is returned as it is. *)
Definition replace (s pat rep : jsstring) : jsstring :=
  match search s pat with
  | None => s
  | Some i =>
      let before := take i s in
      let after := drop (i + List.length pat) s in
      before ++ getSubstitution pat before after rep ++ after
  end.

(** [s.split(c)] for a separator of one code unit. *)
Fixpoint split (c : N) (s : jsstring) : list jsstring :=
  match s with
  | [] => [[]]
  | x :: s' =>
      if N.eqb x c then [] :: split c s'
      else match split c s' with
           | l :: ls => (x :: l) :: ls
           | [] => [[x]]
           end
  end.

(** [parts.join(sep)] *)
Fixpoint join (sep : jsstring) (parts : list jsstring) : jsstring :=
  match parts with
  | [] => []
  | [p] => p
  | p :: ps => p ++ sep ++ join sep ps
  end.

(** White space and line terminators: what [trim] strips and what [\s]
    matches. *)
Definition isSpace (c : N) : bool :=
  existsb (N.eqb c)
    [9; 10; 11; 12; 13; 32; 160; 5760; 8232; 8233; 8239; 8287; 12288; 65279]%N
  || (8192 <=? c)%N && (c <=? 8202)%N.

Fixpoint trimStart (s : jsstring) : jsstring :=
  match s with
  | c :: s' => if isSpace c then trimStart s' else s
  | [] => []
  end.

Definition trimEnd (s : jsstring) : jsstring := rev (trimStart (rev s)).

(** [s.trim()] *)
Definition trim (s : jsstring) : jsstring := trimEnd (trimStart s).

(** All the suffixes of [s], from the whole string to the empty one: the
    places where an unanchored regular expression may start to match. *)
Fixpoint tails (s : jsstring) : list jsstring :=
  s :: match s with
       | [] => []
       | _ :: s' => tails s'
       end.

(** [s.replace(re, '')] for a global regular expression without empty
    matches.  [matchLen t] is the length of the match of [re] at the start
    of [t], if there is one; matches are taken left to right and do not
    overlap. *)
Fixpoint removeAllFrom (matchLen : jsstring → option nat) (skip : nat)
    (s : jsstring) : jsstring :=
  match s with
  | [] => []
  | c :: s' =>
      match skip with
      | S k => removeAllFrom matchLen k s'
      | O =>
          match matchLen s with
          | Some (S n) => removeAllFrom matchLen n s'
          | _ => c :: removeAllFrom matchLen O s'
          end
      end
  end.

Definition removeAll (matchLen : jsstring → option nat) (s : jsstring) : jsstring :=
  removeAllFrom matchLen O s.

End JS.

Import JS.
Arguments js _%_string.

(** *** Locale path resolver (the head script of [.dumirc.ts])

    The script is the text of a template literal, so a doubled backslash in
    the source is one backslash of the regular expression. *)

(** The regular expression [-cn\/?$] tried at the start of [t]. *)
Definition re_cn_end_at (t : jsstring) : bool :=
  startsWith t (js "-cn")
  && let r := drop 3 t in eqb r (js "/") || eqb r [].

(** [isZhCN(pathname)]: [/-cn\/?$/.test(pathname)] *)
Definition isZhCN (pathname : jsstring) : bool :=
  existsb re_cn_end_at (tails pathname).

(** The regular expression [\/?index(-cn)?] tried at the start of [t]: the
    slash is optional, and so is the group after [index]. *)
Definition re_index_at (t : jsstring) : bool :=
  (startsWith t (js "/") && startsWith (drop 1 t) (js "index"))
  || startsWith t (js "index").

Definition re_index_test (s : jsstring) : bool :=
  existsb re_index_at (tails s).

(** [s.replace(/\/$/, rep)]: a slash that ends the string. *)
Definition replaceEndSlash (s rep : jsstring) : jsstring :=
  match last s with
  | Some 47%N =>
      let before := removelast s in
      before ++ getSubstitution (js "/") before [] rep
  | _ => s
  end.

(** The constant [pathname] of [getLocalizedPathname]: [path] with a
    leading slash. *)
Definition withLeadingSlash (path : jsstring) : jsstring :=
  if indexOf path (js "/") =? 0 then path else js "/" ++ path.

(** [getLocalizedPathname(path, zhCN)] *)
Definition getLocalizedPathname (path : jsstring) (zhCN : bool) : jsstring :=
  let pathname := withLeadingSlash path in
  if negb zhCN then
    if re_index_test pathname then js "/" else replace pathname (js "-cn") []
  else if eqb pathname (js "/") then js "/index-cn"
  else if indexOf pathname (js "/") =? JS.length pathname - 1 then
    replaceEndSlash pathname (js "-cn/")
  else pathname ++ js "-cn".

(** *** Block parser ([generatePreviewerProps], external demos) *)

(** The regular expression [<\/?style>] tried at the start of [t]: the
    length of the match. *)
Definition re_style_tag_at (t : jsstring) : option nat :=
  if startsWith t (js "</style>") then Some 8%nat
  else if startsWith t (js "<style>") then Some 7%nat
  else None.

(** The regular expression [```(\s*css)] tried at the start of [t]: three
    backticks, any run of white space, then [css]. *)
Definition re_css_fence_at (t : jsstring) : option nat :=
  if startsWith t (js "```") then
    let r := trimStart (drop 3 t) in
    if startsWith r (js "css")
    then Some (List.length t - List.length r + 3)%nat
    else None
  else None.

(** [blocks[name] = text] on an ordinary object: the key [__proto__] is the
    accessor of [Object.prototype], whose setter ignores a string, so no
    property is created for it. *)
Definition setProperty (name text : jsstring) (blocks : gmap jsstring jsstring)
    : gmap jsstring jsstring :=
  if eqb name (js "__proto__") then blocks else <[name := text]> blocks.

(** [getBlockName(text)]; [None] is [null]. *)
Definition getBlockName (text : jsstring) : option jsstring :=
  if startsWith text (js "## ") then Some (trim (replace text (js "## ") []))
  else if startsWith text (js "```css") || startsWith text (js "<style>")
  then Some (js "style")
  else None.

(** [fillBlock(name, lineList)], with the [blocks] object it assigns to. *)
Definition fillBlock (name : jsstring) (lineList : list jsstring)
    (blocks : gmap jsstring jsstring) : gmap jsstring jsstring :=
  match lineList with
  | [] => blocks
  | _ :: rest =>
      let fullText :=
        if eqb name (js "style") then
          removeAll re_css_fence_at
            (removeAll re_style_tag_at (join [10%N] lineList))
        else join [10%N] rest in
      setProperty name fullText blocks
  end.

(** The variables of the parse loop. *)
Record ParseState := {
  blocks : gmap jsstring jsstring;
  blockName : jsstring;
  cacheList : list jsstring
}.

(** One iteration of the loop over the lines.  [if (nextBlockName)] holds
    for a name that is neither [null] nor the empty string. *)
Definition parseLine (st : ParseState) (line : jsstring) : ParseState :=
  match getBlockName line with
  | Some (c :: n) =>
      {| blocks := fillBlock (blockName st) (cacheList st) (blocks st);
         blockName := c :: n;
         cacheList := [line] |}
  | _ =>
      {| blocks := blocks st;
         blockName := blockName st;
         cacheList := cacheList st ++ [line] |}
  end.

(** The body of [if (md) { ... }]: the [blocks] object after the last
    [fillBlock]. *)
Definition parseBlocks (md : jsstring) : gmap jsstring jsstring :=
  let st := fold_left parseLine (split 10 md)
              {| blocks := ∅; blockName := []; cacheList := [] |} in
  fillBlock (blockName st) (cacheList st) (blocks st).

(** *** The host: node's [crypto], [path] and [fs], dumi's [api] and the
    style caches of the renderer *)

(** What [createEmotionServer(cache).extractCritical(html)] reports. *)
Record Critical := { css : jsstring; ids : list jsstring }.

Record EmotionCache := {
  key : jsstring;
  extractCritical : jsstring → Critical
}.

Class Host := {
  (** [createHash('md5').update(str).digest('hex')] *)
  md5_hex : jsstring → jsstring;
  (** [path.join(dir, name)] *)
  path_join : jsstring → jsstring → jsstring;
  (** [api.paths.absOutputPath] *)
  absOutputPath : jsstring;
  (** [api.userConfig.publicPath], possibly undefined *)
  userConfig_publicPath : option jsstring;
  (** [api.config.publicPath] *)
  config_publicPath : jsstring;
  (** [global.__ANTD_STYLE_CACHE_MANAGER_FOR_SSR__.getCacheList()] *)
  getCacheList : list EmotionCache
}.

(** The output directory and the calls made on it and on the logger, in
    order. *)
Inductive Event :=
  | Logged (msg : jsstring)
  | Written (filePath content : jsstring).

Record World := {
  files : gmap jsstring jsstring;
  events : list Event
}.

Definition Eff (A : Type) : Type := World → A * World.

Definition ret {A} (a : A) : Eff A := λ w, (a, w).

Definition bind {A B} (m : Eff A) (f : A → Eff B) : Eff B :=
  λ w, let '(a, w') := m w in f a w'.

Notation "x <- m ;; k" := (bind m (λ x, k))
  (at level 100, m at next level, right associativity).
Notation "m ;;; k" := (bind m (λ _, k))
  (at level 100, right associativity).

(** [fs.existsSync(filePath)] *)
Definition existsSync (filePath : jsstring) : Eff bool :=
  λ w, (bool_decide (is_Some (files w !! filePath)), w).

(** [fs.writeFileSync(filePath, content, 'utf8')] *)
Definition writeFileSync (filePath content : jsstring) : Eff unit :=
  λ w, (tt, {| files := <[filePath := content]> (files w);
              events := events w ++ [Written filePath content] |}).

(** [api.logger.event(msg)]; the colours of [chalk] are left out. *)
Definition logger_event (msg : jsstring) : Eff unit :=
  λ w, (tt, {| files := files w; events := events w ++ [Logged msg] |}).

Section Plugin.
Context `{Host}.

(** [getHash(str, length = 8)] *)
Definition getHash (str : jsstring) (length : nat) : jsstring :=
  slice0 (md5_hex str) length.

(** The style of one cache on one page. *)
Record Style := {
  style_key : jsstring;
  style_css : jsstring;
  style_ids : list jsstring;
  style_tag : jsstring
}.

(** The callback of [getCacheList().map(...)]; [None] is [null]. *)
Definition extractOne (html : jsstring) (cache : EmotionCache) : option Style :=
  let result := extractCritical cache html in
  match css result with
  | [] => None
  | _ :: _ =>
      Some {| style_key := key cache;
              style_css := css result;
              style_ids := ids result;
              style_tag :=
                js "<style data-emotion=" ++ [34%N] ++ key cache ++ js " "
                ++ join (js " ") (ids result) ++ [34%N] ++ js ">"
                ++ css result ++ js "</style>" |}
  end.

(** [styles.filter(Boolean)] *)
Fixpoint filterBoolean {A} (l : list (option A)) : list A :=
  match l with
  | [] => []
  | Some a :: l' => a :: filterBoolean l'
  | None :: l' => filterBoolean l'
  end.

(** [extractEmotionStyle(html)] *)
Definition extractEmotionStyle (html : jsstring) : list Style :=
  filterBoolean (map (extractOne html) getCacheList).

(** The name [writeCSSFile] gives the file. *)
Definition cssFileName (key hashKey : jsstring) : jsstring :=
  js "style-" ++ key ++ js "." ++ getHash hashKey 8 ++ js ".css".

(** [writeCSSFile(key, hashKey, cssString)] *)
Definition writeCSSFile (key hashKey cssString : jsstring) : Eff jsstring :=
  let fileName := cssFileName key hashKey in
  let filePath := path_join absOutputPath fileName in
  found <- existsSync filePath ;;
  (if negb found then
     logger_event (js "write to: " ++ filePath) ;;;
     writeFileSync filePath cssString
   else ret tt) ;;;
  ret fileName.

(** [addLinkStyle(html, cssFile, prepend = false)] *)
Definition addLinkStyle (html cssFile : jsstring) (prepend : bool) : jsstring :=
  let prefix :=
    match userConfig_publicPath with
    | Some (c :: p) => c :: p
    | _ => config_publicPath
    end in
  let link :=
    js "<link rel=" ++ [34%N] ++ js "stylesheet" ++ [34%N] ++ js " href="
    ++ [34%N] ++ (prefix ++ cssFile) ++ [34%N] ++ js ">" in
  if prepend then replace html (js "<head>") (js "<head>" ++ link)
  else replace html (js "</head>") (link ++ js "</head>").

(** An exported page. *)
Record File := { path : jsstring; content : jsstring }.

(** [styles.forEach(...)] on one page; [content] is [file.content], which
    every round overwrites.  In the log line [chalk.blue] is called as a
    template tag: it gets the pieces [[] and []] of the template and the
    key as its arguments and joins them with a space, the pieces as
    [[,]]. *)
Fixpoint forEachStyle (filePath : jsstring) (styles : list Style)
    (content : jsstring) : Eff jsstring :=
  match styles with
  | [] => ret content
  | result :: rest =>
      logger_event
        (filePath ++ js " include [,] " ++ style_key result ++ js " "
         ++ js (pretty (List.length (style_ids result))) ++ js " styles") ;;;
      cssFile <- writeCSSFile (style_key result) (join [] (style_ids result))
                   (style_css result) ;;
      forEachStyle filePath rest (addLinkStyle content cssFile false)
  end.

(** The callback of [.map(...)]. *)
Definition processFile (file : File) : Eff File :=
  content' <- forEachStyle (path file)
                (extractEmotionStyle (content file)) (content file) ;;
  ret {| path := path file; content := content' |}.

(** [files.map(f)] for a callback with effects, left to right. *)
Fixpoint mapEff {A B} (f : A → Eff B) (l : list A) : Eff (list B) :=
  match l with
  | [] => ret []
  | a :: l' => b <- f a ;; bs <- mapEff f l' ;; ret (b :: bs)
  end.

(** The callback given to [api.modifyExportHTMLFiles]. *)
Definition modifyExportHTMLFiles (files : list File) : Eff (list File) :=
  mapEff processFile
    (List.filter (λ f, negb (includes (path f) (js ":"))) files).

End Plugin.

(** *** Vocabulary of the properties *)

(** A line that opens a level-2 heading, and the name it gives the block. *)
Definition isHeading (line : jsstring) : bool := startsWith line (js "## ").

Definition headingName (line : jsstring) : jsstring :=
  trim (replace line (js "## ") []).

(** A line that opens a style block. *)
Definition isStyleMarker (line : jsstring) : bool :=
  startsWith line (js "```css") || startsWith line (js "<style>").

(** What the parse loop would store if the text ended here. *)
Definition finish (st : ParseState) : gmap jsstring jsstring :=
  fillBlock (blockName st) (cacheList st) (blocks st).

(** The names under which the loop has stored or will store a block, the
    empty name apart. *)
Definition named (st : ParseState) (S : gset jsstring) : Prop :=
  dom (finish st) ∖ {[ [] ]} = S
  ∧ (blockName st = [] ∨ blockName st ∈ S)
  ∧ blockName st ≠ js "__proto__".

(** The markdown of the example scenario: an English and a Chinese
    description, then a fenced CSS block.  The two Chinese characters are
    the code units 20320 and 22909. *)
Definition example_md : jsstring :=
  js "## en-US" ++ [10%N] ++ js "Hello" ++ [10%N] ++ [10%N]
  ++ js "## zh-CN" ++ [10%N] ++ [20320%N; 22909%N] ++ [10%N] ++ [10%N]
  ++ js "```css" ++ [10%N] ++ js ".a{color:red}" ++ [10%N] ++ js "```".

(** The blocks the scenario expects. *)
Definition example_blocks : gmap jsstring jsstring :=
  <[js "en-US" := js "Hello" ++ [10%N]]>
    (<[js "zh-CN" := [20320%N; 22909%N; 10%N]]>
       (<[js "style" := js ".a{color:red}" ++ [10%N]]> ∅)).

(** The physical writes among the events, in order. *)
Definition writes (evs : list Event) : list (jsstring * jsstring) :=
  flat_map (λ e, match e with
                 | Written filePath content => [(filePath, content)]
                 | Logged _ => []
                 end) evs.

(** One call of the publisher, as the export step makes it: the key of the
    cache, the rule ids and the CSS text. *)
Record Publish := {
  pub_key : jsstring;
  pub_ids : list jsstring;
  pub_css : jsstring
}.

Definition publish `{Host} (c : Publish) : Eff jsstring :=
  writeCSSFile (pub_key c) (join [] (pub_ids c)) (pub_css c).

(** The path of the file a call derives. *)
Definition publishPath `{Host} (c : Publish) : jsstring :=
  path_join absOutputPath (cssFileName (pub_key c) (join [] (pub_ids c))).

(** A sequence of calls into the same output directory. *)
Definition publishAll `{Host} (calls : list Publish) : Eff (list jsstring) :=
  mapEff publish calls.

(** A cache that has critical CSS for the page. *)
Definition nonEmptyCss (html : jsstring) (cache : EmotionCache) : bool :=
  negb (eqb (css (extractCritical cache html)) []).

(** A host for the examples: the digest is the text itself, [path.join]
    puts a slash between directory and name, and there are two caches, the
    second without CSS. *)
Definition demoHost : Host := {|
  md5_hex := λ str, str;
  path_join := λ dir name, dir ++ js "/" ++ name;
  absOutputPath := js "/dist";
  userConfig_publicPath := None;
  config_publicPath := js "/";
  getCacheList :=
    [ {| key := js "antd";
         extractCritical := λ _, {| css := js ".a{}"; ids := [js "a"; js "b"] |} |};
      {| key := js "css";
         extractCritical := λ _, {| css := []; ids := [] |} |} ]
|}.

(** The empty output directory. *)
Definition emptyWorld : World := {| files := ∅; events := [] |}.

(** *** The head script around the resolver *)

(** What [window.localStorage] does in the browser: reading the property
    throws, or the storage cannot be written to, or the storage works and
    [getItem('locale')] gives a string or [null]. *)
Inductive Storage :=
  | StorageDenied
  | StorageUnusable
  | StorageOk (locale : option jsstring).

(** What the script reads.  [navigator_language] is
    [(navigator.language || navigator.browserLanguage).toLowerCase()], or
    [None] when neither is set, where the call throws. *)
Record Browser := {
  location_pathname : jsstring;
  location_search : jsstring;
  localStorage : Storage;
  navigator_language : option jsstring
}.

(** What the script does: the values it assigns to [location.pathname], in
    order, and the class it appends to the document element, unless an
    exception ended the script before. *)
Record Outcome := {
  assigned : list jsstring;
  className : option jsstring
}.

(** The redirect for the old [?locale=zh-CN] links. *)
Definition queryRedirect (pathname queryString : jsstring) : list jsstring :=
  match queryString with
  | [] => []
  | _ :: _ =>
      let isZhCNConfig := indexOf queryString (js "zh-CN") >? -1 in
      if isZhCNConfig && negb (isZhCN pathname)
      then [getLocalizedPathname pathname isZhCNConfig]
      else []
  end.

(** The language for the home page: the stored one, or the one of the
    browser; [None] when reading the language of the browser throws. *)
Definition homeLanguage (stored navigatorLanguage : option jsstring) : option jsstring :=
  match stored with
  | Some (c :: s) => Some (c :: s)
  | _ =>
      match navigatorLanguage with
      | Some l => Some (if eqb l (js "zh-cn") then js "zh-CN" else js "en-US")
      | None => None
      end
  end.

(** The body of the immediately invoked function. *)
Definition headScript (b : Browser) : Outcome :=
  let pathname := location_pathname b in
  let first := queryRedirect pathname (location_search b) in
  let withClass assigned :=
    {| assigned := assigned;
       className := Some (if isZhCN pathname then js "zh-cn" else js "en-us") |} in
  match localStorage b with
  | StorageDenied => {| assigned := first; className := None |}
  | StorageUnusable => withClass first
  | StorageOk stored =>
      if eqb pathname (js "/") || eqb pathname (js "/index-cn") then
        match homeLanguage stored (navigator_language b) with
        | None => {| assigned := first; className := None |}
        | Some lang =>
            if negb (Bool.eqb (eqb lang (js "zh-CN")) (isZhCN pathname))
            then withClass (first ++ [getLocalizedPathname pathname (eqb lang (js "zh-CN"))])
            else withClass first
        end
      else withClass first
  end.

(** *** More vocabulary for the block parser *)

(** A line at which the loop starts a new block, and the name of that
    block. *)
Definition opensBlock (line : jsstring) : bool :=
  match getBlockName line with
  | Some (_ :: _) => true
  | _ => false
  end.

Definition blockNameOf (line : jsstring) : jsstring :=
  default [] (getBlockName line).

(** *** The previewer props ([generatePreviewerProps]) *)

(** [arr[i]] for an index that may be negative; [None] is [undefined]. *)
Definition at_index {A} (arr : list A) (i : Z) : option A :=
  if i <? 0 then None else arr !! Z.to_nat i.

(** The constant [locale]: the last but one of the pieces of [mdAbsPath]
    between dots. *)
Definition localeOfPath (mdAbsPath : jsstring) : option jsstring :=
  let arr := split 46 mdAbsPath in
  at_index arr (Z.of_nat (List.length arr) - 2).

(** [\w]: a letter, a digit or the underscore. *)
Definition isWord (c : N) : bool :=
  (48 <=? c)%N && (c <=? 57)%N || (65 <=? c)%N && (c <=? 90)%N
  || (c =? 95)%N || (97 <=? c)%N && (c <=? 122)%N.

(** The regular expression [\.\w+$] tried at the start of [t]. *)
Definition re_ext_at (t : jsstring) : bool :=
  match t with
  | dot :: c :: w => (dot =? 46)%N && forallb isWord (c :: w)
  | _ => false
  end.

(** [s.replace(/\.\w+$/, rep)] for a replacement text without a dollar
    sign. *)
Fixpoint replaceExt (s rep : jsstring) : jsstring :=
  if re_ext_at s then rep
  else match s with
       | [] => []
       | c :: s' => c :: replaceExt s' rep
       end.

(** A value read from the [blocks] object: a string of its own, a value
    inherited from [Object.prototype], or [undefined]. *)
Inductive JsValue :=
  | Undefined
  | Str (s : jsstring)
  | Inherited (name : jsstring).

(** The properties of [Object.prototype]. *)
Definition objectPrototypeKeys : list jsstring :=
  [js "constructor"; js "__defineGetter__"; js "__defineSetter__";
   js "hasOwnProperty"; js "__lookupGetter__"; js "__lookupSetter__";
   js "isPrototypeOf"; js "propertyIsEnumerable"; js "toString";
   js "valueOf"; js "__proto__"; js "toLocaleString"].

(** [blocks[name]] *)
Definition getProperty (name : jsstring) (blocks : gmap jsstring jsstring) : JsValue :=
  match blocks !! name with
  | Some s => Str s
  | None =>
      if bool_decide (name ∈ objectPrototypeKeys) then Inherited name else Undefined
  end.

(** The property key of [locale]: [undefined] reads the key of that name. *)
Definition propertyKey (locale : option jsstring) : jsstring :=
  default (js "undefined") locale.

(** What the method needs from outside: the transpiler [tsToJs], the
    dependency tables of [package.json] and the files on disk. *)
Class Previewer := {
  tsToJs : jsstring → jsstring;
  dependencies : gmap jsstring jsstring;
  devDependencies : gmap jsstring jsstring;
  peerDependencies : gmap jsstring jsstring;
  disk : gmap jsstring jsstring
}.

(** The props the method sets; [None] is a property that is not set. *)
Record PreviewerProps := {
  pkgDependencyList : option (gmap jsstring jsstring);
  pkgPeerDependencies : option (gmap jsstring jsstring);
  props_jsx : option jsstring;
  props_description : JsValue;
  props_style : JsValue
}.

(** [opts], by its [type]. *)
Inductive PreviewerOpts :=
  | CodeBlock (entryPointCode : option jsstring)
  | External (fileAbsPath mdAbsPath : jsstring)
  | OtherOpts.

(** [fs.existsSync(p) ? fs.readFileSync(p, 'utf-8') : ''] *)
Definition readOrEmpty `{Previewer} (p : jsstring) : jsstring :=
  default [] (disk !! p).

(** [generatePreviewerProps(props, opts)] *)
Definition generatePreviewerProps `{Previewer} (props : PreviewerProps)
    (opts : PreviewerOpts) : PreviewerProps :=
  let withJsx jsx description style :=
    {| pkgDependencyList := Some (dependencies ∪ devDependencies);
       pkgPeerDependencies := Some peerDependencies;
       props_jsx := Some jsx;
       props_description := description;
       props_style := style |} in
  let jsx0 := default [] (props_jsx props) in
  match opts with
  | CodeBlock entryPointCode =>
      withJsx
        match entryPointCode with
        | Some (c :: code) => tsToJs (c :: code)
        | _ => []
        end
        (props_description props) (props_style props)
  | External fileAbsPath mdAbsPath =>
      let locale := localeOfPath mdAbsPath in
      let md := readOrEmpty (replaceExt fileAbsPath (js ".md")) in
      let code := readOrEmpty (replaceExt fileAbsPath (js ".tsx")) in
      match md with
      | [] => withJsx (tsToJs code) (props_description props) (props_style props)
      | _ :: _ =>
          let blocks := parseBlocks md in
          withJsx (tsToJs code)
            (getProperty (propertyKey locale) blocks)
            (getProperty (js "style") blocks)
      end
  | OtherOpts => withJsx jsx0 (props_description props) (props_style props)
  end.

(** *** The write-once discipline of the export step *)

(** From [w] to [w'] files were only added: [ws] lists the physical
    writes in between, each to a path that held no file, none twice, and
    every other path is as it was. *)
Definition addsFiles (w w' : World) (ws : list (jsstring * jsstring)) : Prop :=
  writes (events w') = writes (events w) ++ ws
  ∧ NoDup ws.*1
  ∧ (∀ p c, (p, c) ∈ ws → files w !! p = None ∧ files w' !! p = Some c)
  ∧ (∀ p, p ∉ ws.*1 → files w' !! p = files w !! p).

(** *** The extra routes ([api.modifyRoutes]) *)

Record IRoute := {
  route_id : jsstring;
  route_path : jsstring;
  route_absPath : jsstring;
  route_parentId : jsstring;
  route_file : jsstring
}.

Section Routes.
(** [require.resolve(p)]; [None] when the module is not found and the call
    throws. *)
Variable resolve : jsstring → option jsstring.

(** The array [extraRoutesList]; its elements are evaluated in order. *)
Definition extraRoutesList : option (list IRoute) :=
  cn ← resolve (js "../../../../CHANGELOG.zh-CN.md");
  en ← resolve (js "../../../../CHANGELOG.en-US.md");
  Some [ {| route_id := js "changelog-cn"; route_path := js "changelog-cn";
            route_absPath := js "/changelog-cn"; route_parentId := js "DocLayout";
            route_file := cn |};
         {| route_id := js "changelog"; route_path := js "changelog";
            route_absPath := js "/changelog"; route_parentId := js "DocLayout";
            route_file := en |} ].

(** The callback given to [api.modifyRoutes]; [None] when it throws. *)
Definition modifyRoutes (routes : gmap jsstring IRoute) : option (gmap jsstring IRoute) :=
  extraRoutes ← extraRoutesList;
  Some (fold_left (λ routes itemRoute, <[route_path itemRoute := itemRoute]> routes)
          extraRoutes routes).

End Routes.

(** *** The theme of the layout ([GlobalLayout]) *)

(** The two algorithms of antd that the layout uses. *)
Inductive MappingAlgorithm := darkAlgorithm | compactAlgorithm.

(** [getAlgorithm(themes)] *)
Definition getAlgorithm (themes : list jsstring) : list MappingAlgorithm :=
  filterBoolean
    (map (λ theme,
            if eqb theme (js "dark") then Some darkAlgorithm
            else if eqb theme (js "compact") then Some compactAlgorithm
            else None)
       themes).

(** [isIndexPage] *)
Definition isIndexPage (pathname : jsstring) : bool :=
  eqb pathname [] || startsWith pathname (js "/index").

Record ThemeConfig := {
  algorithm : list MappingAlgorithm;
  token_motion : bool
}.

(** [themes.includes(name)] on an array of strings. *)
Definition arrayIncludes (themes : list jsstring) (name : jsstring) : bool :=
  existsb (eqb name) themes.

(** [themeConfig] *)
Definition themeConfig (pathname : jsstring) (theme : list jsstring) : ThemeConfig :=
  {| algorithm := if isIndexPage pathname then getAlgorithm [js "dark"]
                  else getAlgorithm theme;
     token_motion := negb (arrayIncludes theme (js "motion-off")) |}.

(** *** The start script ([scripts/set-node-options.ts]) *)

(** [totalMemory]: the memory of the machine in megabytes, from
    [os.totalmem()] in bytes.  The byte count is a whole number below 2^53
    and the divisor a power of two, so the division of the doubles is exact
    and [Math.floor] of it is the quotient of the integers. *)
Definition totalMemory (totalmem : Z) : Z := totalmem / (1024 * 1024).

(** What the script does: the value it gives [process.env.NODE_OPTIONS],
    if it sets it, and the command it runs. *)
Record Launch := {
  NODE_OPTIONS : option jsstring;
  command : jsstring
}.

Definition setNodeOptions (totalmem : Z) (argv : list jsstring) : Launch :=
  {| NODE_OPTIONS := if totalMemory totalmem <=? 8192
                     then Some (js "--max-old-space-size=4096") else None;
     command := js " " ++ join (js " ") (drop 2 argv) |}.

(** *** Vocabulary for the link element *)

(** The constant [prefix] of [addLinkStyle]. *)
Definition publicPath `{Host} : jsstring :=
  match userConfig_publicPath with
  | Some (c :: p) => c :: p
  | _ => config_publicPath
  end.

(** The link element that [addLinkStyle] writes for a file. *)
Definition linkElement `{Host} (cssFile : jsstring) : jsstring :=
  js "<link rel=" ++ [34%N] ++ js "stylesheet" ++ [34%N] ++ js " href="
  ++ [34%N] ++ (publicPath ++ cssFile) ++ [34%N] ++ js ">".

(** The name of an algorithm as a theme. *)
Definition algorithmName (a : MappingAlgorithm) : jsstring :=
  match a with
  | darkAlgorithm => js "dark"
  | compactAlgorithm => js "compact"
  end.

(** *** More hosts for the examples *)

(** A host whose caches have no CSS for any page. *)
Definition quietHost : Host := {|
  md5_hex := λ str, str;
  path_join := λ dir name, dir ++ js "/" ++ name;
  absOutputPath := js "/dist";
  userConfig_publicPath := None;
  config_publicPath := js "/";
  getCacheList :=
    [ {| key := js "antd";
         extractCritical := λ _, {| css := []; ids := [] |} |} ]
|}.

(** A previewer with one companion markdown on disk. *)
Definition demoPreviewer : Previewer := {|
  tsToJs := λ code, code;
  dependencies := ∅;
  devDependencies := ∅;
  peerDependencies := ∅;
  disk := {[ js "/demo/basic.md" :=
               js "## zh-CN" ++ [10%N] ++ [20320%N; 22909%N] ++ [10%N]
               ++ js "## en-US" ++ [10%N] ++ js "Hello" ]}
|}.

(** Props on which nothing is set yet. *)
Definition emptyProps : PreviewerProps := {|
  pkgDependencyList := None;
  pkgPeerDependencies := None;
  props_jsx := None;
  props_description := Undefined;
  props_style := Undefined
|}.

(** ** Part II.  Properties *)

#[local] Set Warnings "-clear-no-such-hyp".

(** *** Strings *)

Section StringFacts.
Implicit Types s t pat : jsstring.

Lemma startsWith_app s pat : startsWith (pat ++ s) pat = true.
Proof. induction pat as [|c pat IH]; simpl; [done|]. by rewrite N.eqb_refl. Qed.

Lemma startsWith_inv s pat : startsWith s pat = true → ∃ t, s = pat ++ t.
Proof.
  revert s. induction pat as [|c pat IH]; intros [|d s] Hs; simpl in *; eauto; try done.
  apply andb_true_iff in Hs as [Hc Hs]. apply N.eqb_eq in Hc as ->.
  destruct (IH _ Hs) as [t ->]. eauto.
Qed.

Lemma startsWith_app_l s t pat :
  startsWith s pat = true → startsWith (s ++ t) pat = true.
Proof.
  intros [u ->]%startsWith_inv. rewrite <- app_assoc. apply startsWith_app.
Qed.

Lemma search_cons c s pat :
  search (c :: s) pat = if startsWith (c :: s) pat then Some O else S <$> search s pat.
Proof. reflexivity. Qed.

Lemma search_Some s pat i :
  search s pat = Some i → s = take i s ++ pat ++ drop (i + List.length pat) s.
Proof.
  revert i. induction s as [|c s IH]; intros i; simpl.
  - destruct (startsWith [] pat) eqn:E; [|done]. intros [= <-].
    apply startsWith_inv in E as [t E]. destruct pat; [done|done].
  - destruct (startsWith (c :: s) pat) eqn:E.
    + intros [= <-]. apply startsWith_inv in E as [t E]. rewrite E. simpl.
      by rewrite drop_app_length.
    + destruct (search s pat) as [j|] eqn:Ej; [|done]. intros [= <-]. simpl.
      f_equal. by apply IH.
Qed.

Lemma search_None s pat pre post : search s pat = None → s ≠ pre ++ pat ++ post.
Proof.
  revert pre. induction s as [|c s IH]; intros pre; simpl.
  - destruct (startsWith [] pat) eqn:E; [done|]. intros _ Hs.
    symmetry in Hs. apply app_eq_nil in Hs as [-> [-> ->]%app_eq_nil]. done.
  - destruct (startsWith (c :: s) pat) eqn:E; [done|].
    destruct (search s pat) eqn:Ej; [done|]. intros _ Hs.
    destruct pre as [|d pre]; simpl in Hs.
    + rewrite Hs, startsWith_app in E. done.
    + injection Hs as -> Hs. by eapply IH.
Qed.

Lemma search_is_Some s pat pre post : s = pre ++ pat ++ post → is_Some (search s pat).
Proof.
  intros Hs. destruct (search s pat) eqn:E; [eauto|].
  by eapply search_None in E.
Qed.

Lemma includes_true s pat : includes s pat = true ↔ ∃ pre post, s = pre ++ pat ++ post.
Proof.
  unfold includes. rewrite bool_decide_eq_true. split.
  - intros [i Hi]. apply search_Some in Hi. eauto.
  - intros (pre & post & Hs). by eapply search_is_Some.
Qed.

Lemma includes_false s pat : includes s pat = false ↔ search s pat = None.
Proof.
  unfold includes. rewrite bool_decide_eq_false, <- eq_None_not_Some. done.
Qed.

(** [search] finds the first occurrence: [pat] starts at no earlier place. *)
Lemma search_least s pat i j :
  search s pat = Some i → (j < i)%nat → startsWith (drop j s) pat = false.
Proof.
  revert i j. induction s as [|c s IH]; intros i j.
  - simpl. destruct (startsWith [] pat); [|done]. intros [= <-]. lia.
  - rewrite search_cons. destruct (startsWith (c :: s) pat) eqn:E.
    + intros [= <-]. lia.
    + destruct (search s pat) as [i'|] eqn:Ei; [|done]. intros [= <-] Hj.
      destruct j as [|j]; [done|]. simpl. apply (IH i'); [done|lia].
Qed.

Lemma replace_None s pat rep : search s pat = None → replace s pat rep = s.
Proof. unfold replace. by intros ->. Qed.

(** A replacement text without a dollar sign is inserted as it is. *)
Lemma getSubstitution_plain (matched before after rep : jsstring) :
  36%N ∉ rep → getSubstitution matched before after rep = rep.
Proof.
  induction rep as [|c rep IH]; [done|].
  rewrite not_elem_of_cons. intros [Hc Hrep]. simpl.
  destruct (N.eqb_spec c 36) as [->|_]; [done|]. by rewrite IH.
Qed.

Lemma replace_plain s pat rep i :
  search s pat = Some i → 36%N ∉ rep →
  replace s pat rep = take i s ++ rep ++ drop (i + List.length pat) s.
Proof.
  intros Hi Hrep. unfold replace. by rewrite Hi, getSubstitution_plain.
Qed.

End StringFacts.

(** *** The locale path resolver *)

Section LocaleFacts.
Implicit Types p q s t : jsstring.

Lemma search_zero s pat : search s pat = Some O ↔ startsWith s pat = true.
Proof.
  destruct s as [|c s]; simpl.
  - destruct (startsWith [] pat); naive_solver.
  - destruct (startsWith (c :: s) pat); [naive_solver|].
    destruct (search s pat); naive_solver.
Qed.

Lemma indexOf_zero s pat : indexOf s pat = 0 ↔ startsWith s pat = true.
Proof.
  rewrite <- search_zero. unfold indexOf.
  destruct (search s pat) as [[|i]|]; split; intros; simplify_eq; (done || lia).
Qed.

Lemma withLeadingSlash_cons r : withLeadingSlash (47%N :: r) = 47%N :: r.
Proof. reflexivity. Qed.

Lemma withLeadingSlash_cases p :
  ∃ r, withLeadingSlash p = 47%N :: r
       ∧ (withLeadingSlash p = p ∨ (startsWith p (js "/") = false
                                    ∧ withLeadingSlash p = 47%N :: p)).
Proof.
  unfold withLeadingSlash.
  destruct (indexOf p (js "/") =? 0) eqn:E.
  - apply Z.eqb_eq, indexOf_zero, startsWith_inv in E as [t ->]. eauto.
  - exists p. split; [done|]. right. split; [|done].
    apply Z.eqb_neq in E. rewrite indexOf_zero in E.
    by destruct (startsWith p (js "/")).
Qed.

(** With [zhCN] set, the branch for a trailing slash is never taken: the
    first slash of [pathname] is its first code unit. *)
Lemma getLocalizedPathname_true p :
  getLocalizedPathname p true =
    if eqb (withLeadingSlash p) (js "/") then js "/index-cn"
    else withLeadingSlash p ++ js "-cn".
Proof.
  unfold getLocalizedPathname. simpl negb. cbv iota.
  destruct (withLeadingSlash_cases p) as (r & -> & _).
  destruct (eqb (47%N :: r) (js "/")) eqn:E; [done|].
  replace (indexOf (47%N :: r) (js "/")) with 0 by done.
  destruct r as [|c r]; [done|].
  unfold JS.length. simpl List.length.
  destruct (0 =? _) eqn:E'; [|done]. apply Z.eqb_eq in E'. lia.
Qed.

Lemma getLocalizedPathname_false p :
  getLocalizedPathname p false =
    if re_index_test (withLeadingSlash p) then js "/"
    else replace (withLeadingSlash p) (js "-cn") [].
Proof. reflexivity. Qed.

Lemma getLocalizedPathname_true_cons p :
  ∃ c r, getLocalizedPathname p true = 47%N :: c :: r.
Proof.
  rewrite getLocalizedPathname_true.
  destruct (withLeadingSlash_cases p) as (r & -> & _).
  destruct r as [|c r]; [by eexists _, _|].
  replace (eqb (47%N :: c :: r) (js "/")) with false by done.
  by eexists _, _.
Qed.

Lemma isZhCN_cons c s : isZhCN (c :: s) = re_cn_end_at (c :: s) || isZhCN s.
Proof. unfold isZhCN. by destruct s. Qed.

Lemma isZhCN_app_cn s : isZhCN (s ++ js "-cn") = true.
Proof.
  induction s as [|c s IH]; [done|].
  change ((c :: s) ++ js "-cn") with (c :: (s ++ js "-cn")).
  rewrite isZhCN_cons, IH. apply orb_true_r.
Qed.

Lemma isZhCN_search s : isZhCN s = true → is_Some (search s (js "-cn")).
Proof.
  induction s as [|c s IH]; [done|].
  rewrite isZhCN_cons. intros [Hc|Hs]%orb_true_iff.
  - apply andb_true_iff in Hc as [Hc _].
    exists O. by apply search_zero.
  - destruct (IH Hs) as [i Hi]. rewrite search_cons.
    destruct (startsWith (c :: s) (js "-cn")); [by eexists|]. rewrite Hi. by eexists.
Qed.

Lemma search_cons_None c s pat :
  search (c :: s) pat = None ↔ startsWith (c :: s) pat = false ∧ search s pat = None.
Proof.
  rewrite search_cons. destruct (startsWith (c :: s) pat).
  - split; [done|]. by intros [? _].
  - destruct (search s pat); split; try done. by intros [_ ?].
Qed.

(** [-cn] has no border: after a text without [-cn], its first occurrence
    is the one appended. *)
Lemma search_cn_app q t :
  search q (js "-cn") = None →
  search (q ++ js "-cn" ++ t) (js "-cn") = Some (List.length q).
Proof.
  induction q as [|c q IH]; [done|].
  intros [Hc Hq]%search_cons_None.
  change ((c :: q) ++ js "-cn" ++ t) with (c :: (q ++ js "-cn" ++ t)).
  rewrite search_cons. rewrite (IH Hq). simpl List.length.
  replace (startsWith (c :: q ++ js "-cn" ++ t) (js "-cn")) with false; [done|].
  symmetry. revert Hc. change (js "-cn") with [45; 99; 110]%N.
  destruct q as [|d [|e q]]; simpl; done.
Qed.

Lemma search_cn_snoc_slash q :
  search q (js "-cn") = None → search (q ++ js "/") (js "-cn") = None.
Proof.
  intros Hq. destruct (search (q ++ js "/") (js "-cn")) as [i|] eqn:E; [|done].
  apply search_Some in E.
  set (pre := take i (q ++ js "/")) in E.
  set (post := drop (i + List.length (js "-cn")) (q ++ js "/")) in E.
  clearbody pre post. exfalso.
  destruct (decide (post = [])) as [->|Hpost].
  - rewrite app_nil_r in E.
    change (js "-cn") with ([45; 99]%N ++ [110%N]) in E.
    rewrite !app_assoc in E. apply app_inj_tail in E as [_ E]. done.
  - destruct (exists_last Hpost) as (post' & c & ->).
    rewrite !app_assoc in E. apply app_inj_tail in E as [E _].
    rewrite <- app_assoc in E. by eapply search_None in Hq.
Qed.

Lemma replace_cn_app q t :
  search q (js "-cn") = None → replace (q ++ js "-cn" ++ t) (js "-cn") [] = q ++ t.
Proof.
  intros Hq. unfold replace. rewrite (search_cn_app _ t Hq). simpl.
  rewrite take_app_length. f_equal.
  rewrite drop_app_add'; [|done]. done.
Qed.

Lemma startsWith_snoc_inv s c pat :
  forallb (λ x, negb (N.eqb x c)) pat = true →
  startsWith (s ++ [c]) pat = true → startsWith s pat = true.
Proof.
  revert s. induction pat as [|a pat IH]; intros s Hc; [done|].
  simpl in Hc. apply andb_true_iff in Hc as [Ha Hc].
  destruct s as [|d s]; simpl.
  - destruct (N.eqb a c); [done|]. done.
  - intros [-> Hs]%andb_true_iff. by rewrite (IH _ Hc Hs).
Qed.

Lemma re_index_test_cons c s :
  re_index_test (c :: s) = re_index_at (c :: s) || re_index_test s.
Proof. unfold re_index_test. by destruct s. Qed.

Lemma re_index_at_cons c s :
  re_index_at (c :: s) =
    (N.eqb 47 c && startsWith s (js "index")) || startsWith (c :: s) (js "index").
Proof.
  unfold re_index_at. change (js "/") with [47%N].
  cbn [startsWith drop]. by rewrite drop_0, andb_true_r.
Qed.

Lemma re_index_at_app s t : re_index_at s = true → re_index_at (s ++ t) = true.
Proof.
  destruct s as [|c s]; [done|].
  change ((c :: s) ++ t) with (c :: (s ++ t)). rewrite !re_index_at_cons.
  intros [[-> H2]%andb_true_iff|H]%orb_true_iff.
  - by rewrite (startsWith_app_l _ t _ H2).
  - change (c :: (s ++ t)) with ((c :: s) ++ t).
    rewrite (startsWith_app_l _ t _ H). apply orb_true_r.
Qed.

Lemma re_index_test_app s t : re_index_test s = true → re_index_test (s ++ t) = true.
Proof.
  induction s as [|c s IH]; [done|].
  change ((c :: s) ++ t) with (c :: (s ++ t)). rewrite !re_index_test_cons.
  intros [H|H]%orb_true_iff.
  - change (c :: (s ++ t)) with ((c :: s) ++ t). by rewrite re_index_at_app.
  - rewrite (IH H). apply orb_true_r.
Qed.

Lemma re_index_test_snoc_slash s :
  re_index_test (s ++ js "/") = true → re_index_test s = true.
Proof.
  induction s as [|c s IH]; [done|].
  change ((c :: s) ++ js "/") with (c :: (s ++ js "/")). rewrite !re_index_test_cons.
  intros [H|H]%orb_true_iff; [|rewrite (IH H); apply orb_true_r].
  apply orb_true_iff. left. revert H. rewrite !re_index_at_cons.
  intros [[-> H2]%andb_true_iff|H]%orb_true_iff.
  - apply (startsWith_snoc_inv _ 47%N) in H2; [|done]. by rewrite H2.
  - change (c :: s ++ js "/") with ((c :: s) ++ [47%N]) in H.
    apply startsWith_snoc_inv in H; [|done]. rewrite H. apply orb_true_r.
Qed.

End LocaleFacts.

Section LocaleClaims.
Implicit Types p q s t : jsstring.

Example getLocalizedPathname_button_cn :
  getLocalizedPathname (js "/components/button") true = js "/components/button-cn".
Proof. reflexivity. Qed.

Example getLocalizedPathname_button_en :
  getLocalizedPathname (js "/components/button-cn") false = js "/components/button".
Proof. reflexivity. Qed.

Example getLocalizedPathname_root_cn :
  getLocalizedPathname (js "/") true = js "/index-cn".
Proof. reflexivity. Qed.

Example getLocalizedPathname_index_cn_en :
  getLocalizedPathname (js "/index-cn") false = js "/".
Proof. reflexivity. Qed.

(** The comment of the source promises [/components/button-cn/] for a path
    with a trailing slash; the branch tests [indexOf] where it means the
    last slash, so the suffix lands after the slash. *)
Example getLocalizedPathname_trailing_slash :
  getLocalizedPathname (js "/components/button/") true = js "/components/button/-cn".
Proof. reflexivity. Qed.

(** A path whose only [-cn], if any, is the locale suffix: [q] holds no
    [-cn] and [sfx] is empty, [-cn] or [-cn/]. *)
Lemma withLeadingSlash_suffix q sfx :
  includes q (js "-cn") = false → sfx ∈ [[]; js "-cn"; js "-cn/"] →
  ∃ r, withLeadingSlash (q ++ sfx) = (47%N :: r) ++ sfx
       ∧ search (47%N :: r) (js "-cn") = None.
Proof.
  intros Hq%includes_false Hsfx.
  destruct q as [|c q].
  - exists []. split; [|done].
    apply elem_of_cons in Hsfx as [->|Hsfx]; [done|].
    apply elem_of_cons in Hsfx as [->|Hsfx]; [done|].
    apply list_elem_of_singleton in Hsfx as ->. done.
  - destruct (withLeadingSlash_cases ((c :: q) ++ sfx)) as (r & Hr & [Heq|[_ Heq]]).
    + rewrite Heq in Hr. injection Hr as -> _. exists q. by rewrite Heq.
    + exists (c :: q). rewrite Heq. split; [done|].
      apply search_cons_None. by split.
Qed.

Lemma getLocalizedPathname_false_suffix q sfx :
  includes q (js "-cn") = false → sfx ∈ [[]; js "-cn"; js "-cn/"] →
  getLocalizedPathname (q ++ sfx) false = js "/"
  ∨ ∃ r, getLocalizedPathname (q ++ sfx) false = 47%N :: r
         ∧ search (47%N :: r) (js "-cn") = None
         ∧ re_index_test (47%N :: r) = false.
Proof.
  intros Hq Hsfx. rewrite getLocalizedPathname_false.
  destruct (withLeadingSlash_suffix q sfx Hq Hsfx) as (r & -> & Hr).
  destruct (re_index_test ((47%N :: r) ++ sfx)) eqn:E; [by left|]. right.
  assert (re_index_test (47%N :: r) = false) as Hidx.
  { destruct (re_index_test (47%N :: r)) eqn:E'; [|done].
    by rewrite (re_index_test_app _ sfx E') in E. }
  apply elem_of_cons in Hsfx as [->|Hsfx].
  { exists r. rewrite app_nil_r in *. by rewrite replace_None. }
  apply elem_of_cons in Hsfx as [->|Hsfx].
  { exists r. rewrite <- (app_nil_r (js "-cn")), replace_cn_app by done.
    by rewrite app_nil_r. }
  apply list_elem_of_singleton in Hsfx as ->.
  exists (r ++ js "/"). change (js "-cn/") with (js "-cn" ++ js "/") in *.
  rewrite replace_cn_app by done. split; [done|]. split.
  - by apply (search_cn_snoc_slash (47%N :: r)).
  - destruct (re_index_test (47%N :: r ++ js "/")) eqn:E'; [|done].
    apply (re_index_test_snoc_slash (47%N :: r)) in E'. congruence.
Qed.

(** A path with a leading slash, without [-cn] and without [index] is its
    own default-locale form. *)
Lemma getLocalizedPathname_false_fixed r :
  search (47%N :: r) (js "-cn") = None → re_index_test (47%N :: r) = false →
  getLocalizedPathname (47%N :: r) false = 47%N :: r.
Proof.
  intros Hr Hidx. rewrite getLocalizedPathname_false, withLeadingSlash_cons, Hidx.
  by apply replace_None.
Qed.

(** C1, as the code has it.  With [zhCN] set the resolver is not idempotent:
    for every path, resolving a second time appends [-cn] once more (the
    callers test [isZhCN] before they ask for the Chinese path).  With
    [zhCN] unset it is idempotent on every path whose only [-cn], if any,
    is the locale suffix: [p] is [q], [q-cn] or [q-cn/] for a [q] that
    holds no [-cn]. *)
Theorem getLocalizedPathname_twice p :
  getLocalizedPathname (getLocalizedPathname p true) true
  = getLocalizedPathname p true ++ js "-cn"
  ∧ ∀ q sfx,
      includes q (js "-cn") = false → sfx ∈ [[]; js "-cn"; js "-cn/"] →
      p = q ++ sfx →
      getLocalizedPathname (getLocalizedPathname p false) false
      = getLocalizedPathname p false.
Proof.
  split.
  - destruct (getLocalizedPathname_true_cons p) as (c & r & ->).
    by rewrite getLocalizedPathname_true, withLeadingSlash_cons.
  - intros q sfx Hq Hsfx ->.
    destruct (getLocalizedPathname_false_suffix q sfx Hq Hsfx)
      as [->|(r & -> & Hr & Hidx)]; [done|].
    by apply getLocalizedPathname_false_fixed.
Qed.

Lemma getLocalizedPathname_twice_witness :
  getLocalizedPathname
    (getLocalizedPathname (js "/components/button-cn/") false) false
  = getLocalizedPathname (js "/components/button-cn/") false.
Proof.
  apply (proj2 (getLocalizedPathname_twice (js "/components/button-cn/"))
           (js "/components/button") (js "-cn/")).
  - reflexivity.
  - repeat constructor.
  - reflexivity.
Defined.

(** C1 as stated fails: resolving [/components/button] twice to the Chinese
    locale gives [/components/button-cn-cn], not [/components/button-cn]. *)
Lemma getLocalizedPathname_not_idempotent :
  getLocalizedPathname (getLocalizedPathname (js "/components/button") true) true
  ≠ getLocalizedPathname (js "/components/button") true.
Proof. vm_compute. discriminate. Qed.

(** Only the first [-cn] is removed, so the default locale is not
    idempotent either on a path that holds the text twice. *)
Example getLocalizedPathname_false_twice :
  getLocalizedPathname (js "/docs/react-cn-cn") false = js "/docs/react-cn"
  ∧ getLocalizedPathname (js "/docs/react-cn") false = js "/docs/react".
Proof. split; reflexivity. Qed.

(** C6, as the code has it.  The Chinese form of every path is detected as
    Chinese.  The default form is not detected as Chinese for every path
    whose only [-cn], if any, is the locale suffix: [p] is [q], [q-cn] or
    [q-cn/] for a [q] that holds no [-cn]. *)
Theorem isZhCN_getLocalizedPathname p :
  isZhCN (getLocalizedPathname p true) = true
  ∧ ∀ q sfx,
      includes q (js "-cn") = false → sfx ∈ [[]; js "-cn"; js "-cn/"] →
      p = q ++ sfx →
      isZhCN (getLocalizedPathname p false) = false.
Proof.
  split.
  - rewrite getLocalizedPathname_true.
    destruct (eqb _ _); [done|]. apply isZhCN_app_cn.
  - intros q sfx Hq Hsfx ->.
    destruct (getLocalizedPathname_false_suffix q sfx Hq Hsfx)
      as [->|(r & -> & Hr & _)]; [done|].
    destruct (isZhCN (47%N :: r)) eqn:E; [|done].
    apply isZhCN_search in E as [i Hi]. congruence.
Qed.

Lemma isZhCN_getLocalizedPathname_witness :
  isZhCN (getLocalizedPathname (js "/components/button-cn") true) = true
  ∧ isZhCN (getLocalizedPathname (js "/components/button-cn") false) = false.
Proof.
  split.
  - apply (isZhCN_getLocalizedPathname (js "/components/button-cn")).
  - apply (proj2 (isZhCN_getLocalizedPathname (js "/components/button-cn"))
             (js "/components/button") (js "-cn")).
    + reflexivity.
    + repeat constructor.
    + reflexivity.
Defined.

(** C6 as stated fails: the default form of [/docs/react-cn-cn] is
    [/docs/react-cn], which [isZhCN] accepts. *)
Lemma isZhCN_getLocalizedPathname_false_counterexample :
  isZhCN (getLocalizedPathname (js "/docs/react-cn-cn") false) = true.
Proof. reflexivity. Qed.

End LocaleClaims.

(** *** The block parser *)

Section ParserFacts.
Implicit Types (st : ParseState) (line name text : jsstring) (S : gset jsstring).

Lemma getBlockName_heading line :
  isHeading line = true → getBlockName line = Some (headingName line).
Proof. unfold getBlockName, isHeading. by intros ->. Qed.

Lemma getBlockName_other line :
  isHeading line = false → isStyleMarker line = false → getBlockName line = None.
Proof. unfold getBlockName, isHeading, isStyleMarker. by intros -> ->. Qed.

Lemma dom_setProperty name text (b : gmap jsstring jsstring) :
  name ≠ js "__proto__" → dom (setProperty name text b) = {[name]} ∪ dom b.
Proof.
  intros Hn. unfold setProperty, eqb. rewrite bool_decide_eq_false_2 by done.
  apply dom_insert_L.
Qed.

Lemma dom_fillBlock name (l : jsstring) (ls : list jsstring) (b : gmap jsstring jsstring) :
  name ≠ js "__proto__" → dom (fillBlock name (l :: ls) b) = {[name]} ∪ dom b.
Proof. intros Hn. unfold fillBlock. by apply dom_setProperty. Qed.

Lemma named_heading st S line :
  named st S → isHeading line = true →
  headingName line ≠ [] → headingName line ≠ js "__proto__" →
  named (parseLine st line) (S ∪ {[headingName line]}).
Proof.
  intros (HS & Hb & Hp) Hh Hne Hproto. unfold parseLine.
  rewrite (getBlockName_heading _ Hh).
  destruct (headingName line) as [|c n] eqn:En; [done|].
  unfold named, finish. simpl. rewrite dom_setProperty by done.
  fold (finish st). split; [|split; [right|done]]; set_solver.
Qed.

Lemma named_other st S line :
  named st S → isHeading line = false → isStyleMarker line = false →
  named (parseLine st line) S.
Proof.
  intros (HS & Hb & Hp) Hh Hs. unfold parseLine.
  rewrite (getBlockName_other _ Hh Hs).
  unfold named, finish in *. simpl. split; [|done].
  destruct (cacheList st) as [|l ls] eqn:El.
  - simpl in *. rewrite dom_setProperty by done. set_solver.
  - change ((l :: ls) ++ [line]) with (l :: (ls ++ [line])).
    rewrite dom_fillBlock in * by done. done.
Qed.

Lemma named_fold (lines : list jsstring) st S :
  named st S →
  forallb (λ l, negb (isStyleMarker l)) lines = true →
  [] ∉ map headingName (List.filter isHeading lines) →
  js "__proto__" ∉ map headingName (List.filter isHeading lines) →
  named (fold_left parseLine lines st)
    (S ∪ list_to_set (map headingName (List.filter isHeading lines))).
Proof.
  revert st S. induction lines as [|line lines IH]; intros st S Hst Hsty Hne Hproto.
  { cbn. by rewrite (right_id_L ∅ (∪)). }
  simpl in Hsty. apply andb_true_iff in Hsty as [Hs%negb_true_iff Hsty].
  simpl fold_left. simpl List.filter in *.
  destruct (isHeading line) eqn:Hh.
  - rewrite map_cons, not_elem_of_cons in Hne, Hproto.
    destruct Hne as [Hne1 Hne], Hproto as [Hp1 Hproto].
    rewrite map_cons, list_to_set_cons, (assoc_L (∪)).
    apply IH; try done. by apply named_heading.
  - apply IH; try done. by apply named_other.
Qed.

End ParserFacts.

(** The scenario of the specification, block by block. *)
Example parseBlocks_example_style :
  parseBlocks example_md !! js "style"
  = Some ([10%N] ++ js ".a{color:red}" ++ [10%N] ++ js "```").
Proof. by vm_compute. Qed.

(** C2, as the code has it.  Parsing the example yields exactly the blocks
    [en-US], [zh-CN] and [style]; the two descriptions are [Hello] and the
    two Chinese characters, each followed by a line feed; the text of the
    style block starts with the line feed that followed the opening fence,
    then the rule and its line feed. *)
Theorem parseBlocks_example :
  parseBlocks example_md !! js "en-US" = Some (js "Hello" ++ [10%N])
  ∧ parseBlocks example_md !! js "zh-CN" = Some [20320%N; 22909%N; 10%N]
  ∧ (∃ rest, parseBlocks example_md !! js "style"
             = Some ([10%N] ++ js ".a{color:red}" ++ [10%N] ++ rest))
  ∧ dom (parseBlocks example_md) = {[js "en-US"; js "zh-CN"; js "style"]}.
Proof.
  split; [by vm_compute|]. split; [by vm_compute|]. split.
  - eexists. vm_compute. reflexivity.
  - by vm_compute.
Qed.

(** C2 as stated fails: the blocks of the example are not the expected
    ones, the style block differs. *)
Lemma parseBlocks_example_differs : parseBlocks example_md ≠ example_blocks.
Proof.
  intros H. apply (f_equal (lookup (js "style"))) in H.
  vm_compute in H. discriminate.
Qed.

(** C8, as the code has it.  In a text without style markers whose
    headings have names that are not empty, differ from one another and are
    not [__proto__], the blocks with a name that is not empty are exactly
    the headings: one block per heading. *)
Theorem parseBlocks_heading_names (md : jsstring) :
  let lines := split 10 md in
  let names := map headingName (List.filter isHeading lines) in
  forallb (λ l, negb (isStyleMarker l)) lines = true →
  NoDup names → [] ∉ names → js "__proto__" ∉ names →
  dom (parseBlocks md) ∖ {[ [] ]} = list_to_set names
  ∧ size (dom (parseBlocks md) ∖ {[ [] ]}) = List.length (List.filter isHeading lines).
Proof.
  intros lines names Hsty Hdup Hne Hproto.
  assert (dom (parseBlocks md) ∖ {[ [] ]} = list_to_set names) as Hdom.
  { assert (named {| blocks := ∅; blockName := []; cacheList := [] |} ∅) as Hinit.
    { split; [|split; [by left|done]]. unfold finish. simpl. set_solver. }
    destruct (named_fold lines _ ∅ Hinit Hsty Hne Hproto) as (H & _).
    by rewrite (left_id_L ∅ (∪)) in H. }
  split; [done|]. rewrite Hdom, size_list_to_set by done.
  unfold names. by rewrite length_map.
Qed.

Lemma parseBlocks_heading_names_witness :
  size (dom (parseBlocks (js "intro" ++ [10%N] ++ js "## en-US" ++ [10%N]
                          ++ js "Hello" ++ [10%N] ++ js "## zh-CN")) ∖ {[ [] ]})
  = 2%nat.
Proof.
  apply (parseBlocks_heading_names
           (js "intro" ++ [10%N] ++ js "## en-US" ++ [10%N] ++ js "Hello"
            ++ [10%N] ++ js "## zh-CN")).
  - reflexivity.
  - vm_compute. repeat constructor; set_solver.
  - vm_compute. set_solver.
  - vm_compute. set_solver.
Defined.

(** C8 as stated fails: a text with two headings of the same name and no
    style marker has one named block. *)
Lemma parseBlocks_duplicate_heading :
  let md := js "## a" ++ [10%N] ++ js "## a" in
  forallb (λ l, negb (isStyleMarker l)) (split 10 md) = true
  ∧ List.length (List.filter isHeading (split 10 md)) = 2%nat
  ∧ size (dom (parseBlocks md) ∖ {[ [] ]}) = 1%nat.
Proof. vm_compute. done. Qed.

(** A heading without a name does not open a block, and neither does one
    named [__proto__]. *)
Example parseBlocks_nameless_heading :
  parseBlocks (js "## ") = {[ [] := [] ]}
  ∧ parseBlocks (js "## __proto__") = ∅.
Proof. split; by vm_compute. Qed.

(** *** The publisher *)

Section PublisherFacts.
Context `{Host}.
Implicit Types (w : World) (key hashKey cssString : jsstring).

Lemma writes_app evs1 evs2 : writes (evs1 ++ evs2) = writes evs1 ++ writes evs2.
Proof. apply flat_map_app. Qed.

Lemma cssFileName_inj key h1 h2 :
  cssFileName key h1 = cssFileName key h2 ↔ getHash h1 8 = getHash h2 8.
Proof.
  unfold cssFileName. split; [|by intros ->].
  intros E. do 3 apply app_inv_head in E. by apply app_inv_tail in E.
Qed.

(** What one call does to the output directory. *)
Lemma writeCSSFile_found key hashKey cssString w :
  is_Some (files w !! path_join absOutputPath (cssFileName key hashKey)) →
  writeCSSFile key hashKey cssString w = (cssFileName key hashKey, w).
Proof.
  intros Hf. unfold writeCSSFile, bind, existsSync.
  by rewrite bool_decide_eq_true_2.
Qed.

Lemma writeCSSFile_missing key hashKey cssString w :
  files w !! path_join absOutputPath (cssFileName key hashKey) = None →
  let filePath := path_join absOutputPath (cssFileName key hashKey) in
  writeCSSFile key hashKey cssString w =
    (cssFileName key hashKey,
     {| files := <[filePath := cssString]> (files w);
        events := (events w ++ [Logged (js "write to: " ++ filePath)])
                  ++ [Written filePath cssString] |}).
Proof.
  intros Hf. unfold writeCSSFile, bind, existsSync.
  rewrite bool_decide_eq_false_2; [done|]. rewrite Hf. by intros ?%is_Some_None.
Qed.

End PublisherFacts.

Section PublishAll.
Context `{Host}.

Lemma publish_step (c : Publish) (w : World) :
  (is_Some (files w !! publishPath c) ∧ (publish c w).2 = w)
  ∨ (files w !! publishPath c = None
     ∧ files (publish c w).2 = <[publishPath c := pub_css c]> (files w)
     ∧ writes (events (publish c w).2)
       = writes (events w) ++ [(publishPath c, pub_css c)]).
Proof.
  unfold publish, publishPath.
  destruct (files w !! _) as [old|] eqn:E.
  - left. split; [by eexists|]. rewrite writeCSSFile_found; [done|].
    rewrite E. by eexists.
  - right. split; [done|]. rewrite (writeCSSFile_missing _ _ _ w E). simpl.
    split; [done|]. by rewrite !writes_app, app_nil_r.
Qed.

Lemma mapEff_cons {A B} (f : A → Eff B) (a : A) (l : list A) (w : World) :
  (mapEff f (a :: l) w).2 = (mapEff f l (f a w).2).2
  ∧ (mapEff f (a :: l) w).1 = (f a w).1 :: (mapEff f l (f a w).2).1.
Proof.
  simpl. unfold bind. destruct (f a w) as [b w1]. simpl.
  destruct (mapEff f l w1) as [bs w2]. done.
Qed.

End PublishAll.

(** C3, as the code has it.  Under one cache key, two sequences of rule ids
    get different file names exactly when the eight-character digests of
    their concatenations differ. *)
Theorem cssFileName_distinct `{Host} (key : jsstring) (ids1 ids2 : list jsstring) :
  cssFileName key (join [] ids1) ≠ cssFileName key (join [] ids2)
  ↔ getHash (join [] ids1) 8 ≠ getHash (join [] ids2) 8.
Proof. by rewrite cssFileName_inj. Qed.

(** C3 as stated fails: the ids are joined without a separator, so the
    sequences [a, b] and [ab] differ and get the same file name, whatever
    the digest and the key. *)
Lemma cssFileName_join_collision :
  [js "a"; js "b"] ≠ [js "ab"]
  ∧ ∀ (H : Host) (key : jsstring),
      cssFileName key (join [] [js "a"; js "b"]) = cssFileName key (join [] [js "ab"]).
Proof. split; [done|]. intros H key. reflexivity. Qed.

(** C4.  A call returns the derived name.  When a file of that name is in
    the output directory the call changes nothing: no write, no log, the
    file as it was.  A second call with the same arguments never changes
    anything.  When the file is missing at first, the two calls together
    make exactly one write, of the CSS text to that file. *)
Theorem writeCSSFile_twice `{Host} (key hashKey cssString : jsstring) (w : World) :
  let filePath := path_join absOutputPath (cssFileName key hashKey) in
  let r1 := writeCSSFile key hashKey cssString w in
  let r2 := writeCSSFile key hashKey cssString r1.2 in
  r1.1 = cssFileName key hashKey ∧ r2.1 = r1.1
  ∧ r2.2 = r1.2
  ∧ (is_Some (files w !! filePath) → r1.2 = w)
  ∧ (files w !! filePath = None →
     writes (events r2.2) = writes (events w) ++ [(filePath, cssString)]
     ∧ files r2.2 !! filePath = Some cssString).
Proof.
  intros filePath r1 r2. subst r1 r2.
  destruct (files w !! filePath) as [old|] eqn:E.
  - assert (is_Some (files w !! filePath)) as Hs by (by rewrite E).
    rewrite !(writeCSSFile_found _ _ _ w Hs). simpl. done.
  - rewrite (writeCSSFile_missing _ _ _ w E). simpl.
    rewrite writeCSSFile_found; simpl; [|rewrite lookup_insert_eq; by eexists].
    split_and!; try done.
    intros _. rewrite !writes_app, app_nil_r, lookup_insert_eq. done.
Qed.

Lemma writeCSSFile_twice_witness :
  let w1 := (writeCSSFile (H := demoHost) (js "antd") (js "ab") (js ".a{}") emptyWorld).2 in
  let w2 := (writeCSSFile (H := demoHost) (js "antd") (js "ab") (js ".a{}") w1).2 in
  writes (events w2) = [(js "/dist/style-antd.ab.css", js ".a{}")]
  ∧ (writeCSSFile (H := demoHost) (js "antd") (js "ab") (js ".b{}") w2).2 = w2.
Proof.
  intros w1 w2. split.
  - apply (writeCSSFile_twice (H := demoHost)
             (js "antd") (js "ab") (js ".a{}") emptyWorld).
    reflexivity.
  - apply (writeCSSFile_twice (H := demoHost) (js "antd") (js "ab") (js ".b{}") w2).
    vm_compute. by eexists.
Defined.

(** C7, as the code has it.  Across any sequence of calls into one output
    directory, every physical write goes to a path that held no file, no
    path is written twice, each written file holds at the end the text that
    was written to it, and every other file is as it was. *)
Theorem publishAll_writes `{Host} (calls : list Publish) (w : World) :
  let w' := (publishAll calls w).2 in
  ∃ ws : list (jsstring * jsstring),
    writes (events w') = writes (events w) ++ ws
    ∧ NoDup ws.*1
    ∧ (∀ p c, (p, c) ∈ ws → files w !! p = None ∧ files w' !! p = Some c)
    ∧ (∀ p, p ∉ ws.*1 → files w' !! p = files w !! p).
Proof.
  unfold publishAll. revert w.
  induction calls as [|c calls IH]; intros w; cbv zeta.
  { simpl. exists []. rewrite app_nil_r. split_and!; try done.
    - constructor.
    - intros p c' Hin. by apply elem_of_nil in Hin. }
  destruct (mapEff_cons publish c calls w) as [-> _].
  destruct (IH (publish c w).2) as (ws & Hws & Hnd & Hin & Hout).
  destruct (publish_step c w) as [[Hs Heq]|(Hn & Hf & Hw)].
  { rewrite Heq in *. by exists ws. }
  exists ((publishPath c, pub_css c) :: ws).
  assert (publishPath c ∉ ws.*1) as Hfresh.
  { intros [[p c'] [Hp Hc']]%list_elem_of_fmap. simpl in Hp. subst p.
    destruct (Hin _ _ Hc') as [Hnone _].
    rewrite Hf, lookup_insert_eq in Hnone. done. }
  split_and!.
  - by rewrite Hws, Hw, <- app_assoc.
  - rewrite fmap_cons. by constructor.
  - intros p c' [[= -> ->]|Hc']%elem_of_cons.
    + split; [done|]. rewrite (Hout _ Hfresh), Hf. apply lookup_insert_eq.
    + destruct (Hin _ _ Hc') as [Hnone Hsome]. split; [|done].
      rewrite Hf in Hnone. apply lookup_insert_None in Hnone as [? _]. done.
  - intros p. rewrite fmap_cons, not_elem_of_cons. intros [Hne Hp].
    rewrite (Hout _ Hp), Hf. by apply lookup_insert_ne.
Qed.

(** C7 as stated fails: the name comes from the key and the ids, not from
    the text.  Two calls with the same key and ids and different texts
    derive the same file, and after both the file holds the text of the
    first, which is not the text of the second. *)
Lemma publish_same_name_other_css :
  js ".a{color:red}" ≠ js ".a{color:blue}"
  ∧ ∀ (H : Host) (w : World),
      let c1 := {| pub_key := js "antd"; pub_ids := [js "a"];
                   pub_css := js ".a{color:red}" |} in
      let c2 := {| pub_key := js "antd"; pub_ids := [js "a"];
                   pub_css := js ".a{color:blue}" |} in
      files w !! publishPath c1 = None →
      publishPath c2 = publishPath c1
      ∧ files (publishAll [c1; c2] w).2 !! publishPath c2 = Some (pub_css c1).
Proof.
  split; [done|]. intros H w c1 c2 Hn. split; [done|].
  unfold publishAll.
  destruct (mapEff_cons publish c1 [c2] w) as [-> _].
  destruct (mapEff_cons publish c2 [] (publish c1 w).2) as [-> _]. simpl.
  destruct (publish_step c1 w) as [[Hs _]|(_ & Hf & _)].
  { rewrite Hn in Hs. by apply is_Some_None in Hs. }
  destruct (publish_step c2 (publish c1 w).2) as [[_ Heq]|(Hn2 & _)].
  - rewrite Heq, Hf. apply lookup_insert_eq.
  - rewrite Hf in Hn2. change (publishPath c2) with (publishPath c1) in Hn2.
    by rewrite lookup_insert_eq in Hn2.
Qed.

(** *** Extraction, link injection and the export step *)

Section ExportFacts.
Context `{Host}.

Lemma processFile_path (file : File) (w : World) :
  path (processFile file w).1 = path file.
Proof.
  unfold processFile, bind. by destruct (forEachStyle _ _ _ w).
Qed.

Lemma mapEff_processFile_paths (l : list File) (w : World) :
  map path (mapEff processFile l w).1 = map path l.
Proof.
  revert w. induction l as [|f l IH]; intros w; [done|].
  destruct (mapEff_cons processFile f l w) as [_ ->].
  by rewrite !map_cons, processFile_path, IH.
Qed.

Lemma filter_length_neg {A} (P : A → bool) (l : list A) :
  List.length (List.filter (λ x, negb (P x)) l)
  = (List.length l - List.length (List.filter P l))%nat.
Proof.
  pose proof (List.filter_length P l) as Hl. lia.
Qed.

Lemma filterBoolean_map_extractOne (html : jsstring) (caches : list EmotionCache) :
  Forall2 (λ cache style,
             style_key style = key cache
             ∧ style_css style = css (extractCritical cache html)
             ∧ style_ids style = ids (extractCritical cache html))
    (List.filter (nonEmptyCss html) caches)
    (filterBoolean (map (extractOne html) caches)).
Proof.
  induction caches as [|c caches IH]; [constructor|].
  simpl. unfold nonEmptyCss at 1, extractOne at 1.
  destruct (css (extractCritical c html)) eqn:E; simpl; [done|].
  constructor; [|done]. by rewrite E.
Qed.

End ExportFacts.

(** C5.  The paths of the pages that come out are the paths without a
    colon of the pages that went in, in the same order; no page that comes
    out has a colon in its path; and the number of pages that come out is
    the number that went in less the number of pages with a colon. *)
Theorem modifyExportHTMLFiles_paths `{Host} (files : list File) (w : World) :
  let out := (modifyExportHTMLFiles files w).1 in
  map path out = List.filter (λ p, negb (includes p (js ":"))) (map path files)
  ∧ Forall (λ f, includes (path f) (js ":") = false) out
  ∧ List.length out
    = (List.length files
       - List.length (List.filter (λ f, includes (path f) (js ":")) files))%nat.
Proof.
  intros out.
  assert (map path out
          = map path (List.filter (λ f, negb (includes (path f) (js ":"))) files)) as Hp.
  { apply mapEff_processFile_paths. }
  split_and!.
  - rewrite Hp. clear. induction files as [|f files IH]; [done|]. simpl.
    destruct (includes (path f) (js ":")); simpl; by rewrite IH.
  - apply Forall_forall. intros f Hf.
    assert (path f ∈ map path out) as Hin by (by apply list_elem_of_fmap_2).
    rewrite Hp in Hin. apply list_elem_of_fmap in Hin as (g & -> & Hg).
    apply list_elem_of_In, filter_In in Hg as [_ Hg]. by apply negb_true_iff.
  - rewrite <- (length_map path out), Hp, length_map.
    apply (filter_length_neg (λ f, includes (path f) (js ":"))).
Qed.

(** C9.  The styles extracted for a page correspond one to one, in order,
    to the caches whose critical CSS for the page is not empty: each
    carries the key of its cache and the CSS and ids the cache reported.
    A cache without CSS has no style, and no cache has two. *)
Theorem extractEmotionStyle_caches `{Host} (html : jsstring) :
  Forall2 (λ cache style,
             style_key style = key cache
             ∧ style_css style = css (extractCritical cache html)
             ∧ style_ids style = ids (extractCritical cache html))
    (List.filter (nonEmptyCss html) getCacheList)
    (extractEmotionStyle html).
Proof. apply filterBoolean_map_extractOne. Qed.

Example extractEmotionStyle_demo :
  map style_key (extractEmotionStyle (H := demoHost) (js "<html></html>"))
  = [js "antd"].
Proof. reflexivity. Qed.

(** C10.  The marker is [<head>] in prepend mode and [</head>] otherwise.
    Without the marker the HTML comes back as it is.  With the marker, the
    one occurrence that [indexOf] finds, before which the marker stands
    nowhere, is replaced by the expansion of the replacement text: the
    link element before the marker, or after it in prepend mode.  The text
    before that occurrence and the text after it, later occurrences
    included, come back as they are.  When neither the public path nor the
    file name holds a dollar sign, the replacement text is inserted as it
    is. *)
Theorem addLinkStyle_marker `{Host} (html cssFile : jsstring) (prepend : bool) :
  let marker := if prepend then js "<head>" else js "</head>" in
  let replacement :=
    if prepend then marker ++ linkElement cssFile
    else linkElement cssFile ++ marker in
  (includes html marker = false → addLinkStyle html cssFile prepend = html)
  ∧ ∀ i : nat, search html marker = Some i →
      let before := take i html in
      let after := drop (i + List.length marker) html in
      html = before ++ marker ++ after
      ∧ (∀ j : nat, (j < i)%nat → startsWith (drop j html) marker = false)
      ∧ addLinkStyle html cssFile prepend
        = before ++ getSubstitution marker before after replacement ++ after
      ∧ (36%N ∉ publicPath ++ cssFile →
         addLinkStyle html cssFile prepend = before ++ replacement ++ after).
Proof.
  intros marker replacement.
  assert (addLinkStyle html cssFile prepend = replace html marker replacement)
    as Hdef.
  { unfold addLinkStyle, marker, replacement. by destruct prepend. }
  split.
  - intros Hm%includes_false. rewrite Hdef. by apply replace_None.
  - intros i Hi before after. split_and!.
    + by apply search_Some.
    + intros j Hj. by apply (search_least _ _ i).
    + rewrite Hdef. unfold replace. by rewrite Hi.
    + intros Hd. rewrite Hdef. apply (replace_plain _ _ _ i Hi).
      assert (36%N ∉ linkElement cssFile) as Hl.
      { apply not_elem_of_app in Hd as [Hp Hc].
        unfold linkElement. rewrite !not_elem_of_app.
        split_and!; try done;
          by intros Hin%list_elem_of_In; vm_compute in Hin; intuition discriminate. }
      assert (36%N ∉ marker) as Hmk.
      { unfold marker. destruct prepend;
          by intros Hin%list_elem_of_In; vm_compute in Hin; intuition discriminate. }
      unfold replacement. destruct prepend; rewrite not_elem_of_app; by split.
Qed.

Lemma addLinkStyle_marker_witness :
  addLinkStyle (H := demoHost) (js "<body></body>") (js "style-antd.ab.css") false
  = js "<body></body>"
  ∧ addLinkStyle (H := demoHost) (js "<head></head><p></head>")
      (js "style-antd.ab.css") false
    = js "<head>"
      ++ (linkElement (H := demoHost) (js "style-antd.ab.css") ++ js "</head>")
      ++ js "<p></head>".
Proof.
  split.
  - apply (addLinkStyle_marker (H := demoHost) (js "<body></body>")
             (js "style-antd.ab.css") false).
    reflexivity.
  - apply (proj2 (addLinkStyle_marker (H := demoHost) (js "<head></head><p></head>")
                    (js "style-antd.ab.css") false) 6%nat).
    + reflexivity.
    + compute_done.
Defined.

(** With two closing markers the link goes before the first one. *)
Example addLinkStyle_first_occurrence :
  addLinkStyle (H := demoHost) (js "<head></head><p></head>") (js "a.css") false
  = js "<head><link rel=" ++ [34%N] ++ js "stylesheet" ++ [34%N] ++ js " href="
    ++ [34%N] ++ js "/a.css" ++ [34%N] ++ js "></head><p></head>".
Proof. reflexivity. Qed.

(** A dollar sign in the public path is read as a pattern of the
    replacement text. *)
Example addLinkStyle_dollar :
  addLinkStyle
    (H := {| md5_hex := λ s, s; path_join := λ d n, d ++ n; absOutputPath := [];
             userConfig_publicPath := Some (js "/$&/"); config_publicPath := js "/";
             getCacheList := [] |})
    (js "</head>") (js "a.css") false
  = js "<link rel=" ++ [34%N] ++ js "stylesheet" ++ [34%N] ++ js " href="
    ++ [34%N] ++ js "/</head>/a.css" ++ [34%N] ++ js "></head>".
Proof. reflexivity. Qed.

(** *** The locale path resolver and the head script *)

Section LocaleExtras.
Implicit Types p q r s t : jsstring.

Lemma tails_suffix s t : In t (tails s) ↔ t `suffix_of` s.
Proof.
  induction s as [|c s IH].
  - simpl. split.
    + intros [<-|[]]. done.
    + intros ->%suffix_nil_inv. by left.
  - change (tails (c :: s)) with ((c :: s) :: tails s). simpl.
    rewrite IH. split.
    + intros [<-|H]; [done|by apply suffix_cons_r].
    + intros [[|d k] Hk]; simpl in Hk; [by left|].
      injection Hk as -> ->. right. by exists k.
Qed.

Lemma re_cn_end_at_true t :
  re_cn_end_at t = true ↔ t = js "-cn" ∨ t = js "-cn/".
Proof.
  unfold re_cn_end_at. split.
  - intros [[r ->]%startsWith_inv Hr]%andb_true_iff.
    change (drop 3 (js "-cn" ++ r)) with (drop 0 r) in Hr. rewrite drop_0 in Hr.
    apply orb_true_iff in Hr as [Hr|Hr]; apply bool_decide_eq_true in Hr as ->;
      [by right|by left].
  - by intros [->| ->].
Qed.

(** X1. [isZhCN] holds exactly for the paths that end in [-cn] or in [-cn/]. *)
Theorem isZhCN_suffix s :
  isZhCN s = true ↔ js "-cn" `suffix_of` s ∨ js "-cn/" `suffix_of` s.
Proof.
  unfold isZhCN. rewrite existsb_exists. split.
  - intros (t & Ht%tails_suffix & [->| ->]%re_cn_end_at_true); auto.
  - intros [H|H]; eexists; (split; [by apply tails_suffix|done]).
Qed.

Lemma re_index_test_app_r s t : re_index_test t = true → re_index_test (s ++ t) = true.
Proof.
  intros Ht. induction s as [|c s IH]; [done|].
  change ((c :: s) ++ t) with (c :: (s ++ t)).
  rewrite re_index_test_cons, IH. apply orb_true_r.
Qed.

Lemma re_index_at_inv t :
  re_index_at t = true → ∃ pre post, t = pre ++ js "index" ++ post.
Proof.
  unfold re_index_at. intros [[H1 H2]%andb_true_iff|H]%orb_true_iff.
  - apply startsWith_inv in H1 as [u ->].
    change (drop 1 (js "/" ++ u)) with (drop 0 u) in H2. rewrite drop_0 in H2.
    apply startsWith_inv in H2 as [post ->]. by exists (js "/"), post.
  - apply startsWith_inv in H as [post ->]. by exists [], post.
Qed.

(** The test of [/\/?index(-cn)?/] succeeds exactly on the texts that hold
    [index]. *)
Lemma re_index_test_includes s : re_index_test s = includes s (js "index").
Proof.
  apply eq_true_iff_eq. rewrite includes_true. split.
  - unfold re_index_test. rewrite existsb_exists.
    intros (t & [u ->]%tails_suffix & (pre & post & ->)%re_index_at_inv).
    exists (u ++ pre), post. by rewrite <- !app_assoc.
  - intros (pre & post & ->). apply re_index_test_app_r.
    destruct (js "index" ++ post) as [|c u] eqn:E; [done|].
    rewrite re_index_test_cons. apply orb_true_iff. left.
    rewrite <- E. unfold re_index_at. rewrite startsWith_app. apply orb_true_r.
Qed.

Lemma startsWith_snoc_last s c pat :
  last pat ≠ Some c → startsWith (s ++ [c]) pat = true → startsWith s pat = true.
Proof.
  revert s. induction pat as [|a pat IH]; intros s Hl; [done|].
  destruct s as [|d s].
  - destruct pat as [|b pat]; cbn [app startsWith].
    + rewrite andb_true_r. intros ->%N.eqb_eq. done.
    + by destruct (a =? c)%N.
  - change ((d :: s) ++ [c]) with (d :: (s ++ [c])). cbn [startsWith].
    intros [-> Hs]%andb_true_iff. cbn [andb].
    destruct pat as [|b pat]; [done|]. by rewrite (IH s).
Qed.

Lemma re_index_test_snoc s c :
  c ≠ 120%N → re_index_test (s ++ [c]) = true → re_index_test s = true.
Proof.
  intros Hc. induction s as [|d s IH].
  - unfold re_index_test, re_index_at.
    change (js "/") with [47%N]. change (js "index") with [105; 110; 100; 101; 120]%N.
    cbn [app tails existsb startsWith drop].
    by destruct (47 =? c)%N, (105 =? c)%N.
  - change ((d :: s) ++ [c]) with (d :: (s ++ [c])). rewrite !re_index_test_cons.
    intros [H|H]%orb_true_iff; [|rewrite (IH H); apply orb_true_r].
    apply orb_true_iff. left. revert H. rewrite !re_index_at_cons.
    intros [[-> H2]%andb_true_iff|H]%orb_true_iff.
    + apply startsWith_snoc_last in H2; [by rewrite H2|].
      intros [= ?]. done.
    + change (d :: s ++ [c]) with ((d :: s) ++ [c]) in H.
      apply startsWith_snoc_last in H; [rewrite H; apply orb_true_r|].
      intros [= ?]. done.
Qed.

Lemma re_index_test_app_cn s :
  re_index_test s = false → re_index_test (s ++ js "-cn") = false.
Proof.
  intros Hs. destruct (re_index_test (s ++ js "-cn")) eqn:E; [|done].
  change (js "-cn") with ([45%N] ++ [99%N] ++ [110%N]) in E.
  rewrite !app_assoc in E.
  do 3 (apply re_index_test_snoc in E; [|done]). congruence.
Qed.

(** X2. The resolver always gives a path that starts with a slash. *)
Theorem getLocalizedPathname_leading_slash p (zhCN : bool) :
  ∃ r, getLocalizedPathname p zhCN = 47%N :: r.
Proof.
  destruct zhCN.
  - destruct (getLocalizedPathname_true_cons p) as (c & r & ->). eauto.
  - rewrite getLocalizedPathname_false.
    destruct (withLeadingSlash_cases p) as (r & -> & _).
    destruct (re_index_test _); [by exists []|].
    unfold replace. destruct (search (47%N :: r) (js "-cn")) as [i|] eqn:E; [|eauto].
    destruct i as [|i]; [by apply search_zero in E|].
    simpl. eauto.
Qed.

(** X3. From the default path to the Chinese one and back: a path that starts
    with a slash and holds neither [-cn] nor [index] is what resolving it to
    Chinese and then to the default locale gives. *)
Theorem getLocalizedPathname_round_trip r :
  includes (47%N :: r) (js "-cn") = false →
  includes (47%N :: r) (js "index") = false →
  getLocalizedPathname (getLocalizedPathname (47%N :: r) true) false = 47%N :: r.
Proof.
  intros Hcn%includes_false Hidx. rewrite <- re_index_test_includes in Hidx.
  rewrite getLocalizedPathname_true, withLeadingSlash_cons.
  destruct r as [|c r]; [done|].
  replace (eqb (47%N :: c :: r) (js "/")) with false by done.
  rewrite getLocalizedPathname_false.
  change ((47%N :: c :: r) ++ js "-cn") with (47%N :: (c :: r) ++ js "-cn").
  rewrite withLeadingSlash_cons.
  change (47%N :: (c :: r) ++ js "-cn") with ((47%N :: c :: r) ++ js "-cn").
  rewrite (re_index_test_app_cn _ Hidx).
  rewrite <- (app_nil_r (js "-cn")), replace_cn_app by done. apply app_nil_r.
Qed.

(** X4. From the Chinese path to the default one and back: for a path of at
    least two code units that starts with a slash and holds neither [-cn] nor
    [index], the path with [-cn] appended is what resolving it to the default
    locale and then to Chinese gives. *)
Theorem getLocalizedPathname_round_trip_cn c r :
  includes (47%N :: c :: r) (js "-cn") = false →
  includes (47%N :: c :: r) (js "index") = false →
  getLocalizedPathname
    (getLocalizedPathname ((47%N :: c :: r) ++ js "-cn") false) true
  = (47%N :: c :: r) ++ js "-cn".
Proof.
  intros Hcn%includes_false Hidx. rewrite <- re_index_test_includes in Hidx.
  rewrite getLocalizedPathname_false.
  change ((47%N :: c :: r) ++ js "-cn") with (47%N :: (c :: r) ++ js "-cn").
  rewrite withLeadingSlash_cons.
  change (47%N :: (c :: r) ++ js "-cn") with ((47%N :: c :: r) ++ js "-cn").
  rewrite (re_index_test_app_cn _ Hidx).
  rewrite <- (app_nil_r (js "-cn")) at 1. rewrite replace_cn_app by done.
  rewrite app_nil_r, getLocalizedPathname_true, withLeadingSlash_cons. done.
Qed.

(** X5. Every path that holds [index] anywhere has the root as its default
    form. *)
Theorem getLocalizedPathname_index p :
  includes p (js "index") = true → getLocalizedPathname p false = js "/".
Proof.
  intros (pre & post & ->)%includes_true. rewrite getLocalizedPathname_false.
  replace (re_index_test _) with true; [done|]. symmetry.
  rewrite re_index_test_includes. apply includes_true.
  destruct (withLeadingSlash_cases (pre ++ js "index" ++ post)) as (r & _ & [->|[_ ->]]).
  - eauto.
  - by exists (47%N :: pre), post.
Qed.

(** X6. Every assignment of the head script to [location.pathname] changes the
    locale that [isZhCN] sees. *)
Theorem headScript_redirect_changes_locale (b : Browser) t :
  t ∈ assigned (headScript b) →
  isZhCN t = negb (isZhCN (location_pathname b)).
Proof.
  assert (∀ u, u ∈ queryRedirect (location_pathname b) (location_search b) →
               isZhCN u = negb (isZhCN (location_pathname b))) as Hq.
  { intros u. unfold queryRedirect. destruct (location_search b) as [|c qs].
    { by intros ?%elem_of_nil. }
    destruct (indexOf _ _ >? -1); simpl; [|by intros ?%elem_of_nil].
    destruct (isZhCN (location_pathname b)) eqn:E; simpl; [by intros ?%elem_of_nil|].
    intros ->%list_elem_of_singleton. rewrite getLocalizedPathname_true.
    destruct (eqb _ _); [done|]. apply isZhCN_app_cn. }
  unfold headScript. destruct (localStorage b) as [| |stored]; simpl; try apply Hq.
  destruct (eqb (location_pathname b) (js "/") || eqb (location_pathname b) (js "/index-cn")) eqn:Ehome;
    simpl; [|apply Hq].
  destruct (homeLanguage stored (navigator_language b)) as [lang|]; simpl; [|apply Hq].
  destruct (Bool.eqb (eqb lang (js "zh-CN")) (isZhCN (location_pathname b))) eqn:Eneq;
    simpl; [apply Hq|].
  intros [Ht|Ht%list_elem_of_singleton]%elem_of_app; [by apply Hq|]. subst t.
  apply orb_true_iff in Ehome as [E|E]; apply bool_decide_eq_true in E;
    rewrite E in *; by destruct (eqb lang (js "zh-CN")).
Qed.

End LocaleExtras.

Lemma getLocalizedPathname_index_witness :
  getLocalizedPathname (js "/docs/indexing-cn") false = js "/".
Proof. apply (getLocalizedPathname_index (js "/docs/indexing-cn")). reflexivity. Defined.

Lemma headScript_redirect_changes_locale_witness :
  isZhCN (js "/index-cn") = negb (isZhCN (js "/")).
Proof.
  apply (headScript_redirect_changes_locale
           {| location_pathname := js "/"; location_search := [];
              localStorage := StorageOk (Some (js "zh-CN"));
              navigator_language := Some (js "en-us") |} (js "/index-cn")).
  vm_compute. repeat constructor.
Defined.

Lemma getLocalizedPathname_round_trip_cn_witness :
  getLocalizedPathname (getLocalizedPathname (js "/components/button-cn") false) true
  = js "/components/button-cn".
Proof.
  apply (getLocalizedPathname_round_trip_cn 99%N (js "omponents/button")); reflexivity.
Defined.

Lemma getLocalizedPathname_round_trip_witness :
  getLocalizedPathname (getLocalizedPathname (js "/components/button") true) false
  = js "/components/button".
Proof.
  apply (getLocalizedPathname_round_trip (js "components/button")); reflexivity.
Defined.

(** *** The block parser, further *)

Section ParserExtras.
Implicit Types (st : ParseState) (line name k text l : jsstring) (lines body rest : list jsstring).

Lemma split_cons_ne (c : N) (s : jsstring) : split c s ≠ [].
Proof. destruct s as [|x s]; simpl; [done|]. destruct (x =? c)%N; [done|]. by destruct (split c s). Qed.

(** Joining the lines of a text gives the text back. *)
Lemma join_split (c : N) (s : jsstring) : join [c] (split c s) = s.
Proof.
  induction s as [|x s IH]; [done|]. simpl.
  destruct (N.eqb_spec x c) as [->|Hx].
  - destruct (split c s) as [|l ls] eqn:E; [by apply split_cons_ne in E|].
    simpl. by rewrite <- IH.
  - destruct (split c s) as [|l ls] eqn:E; [by apply split_cons_ne in E|].
    rewrite <- IH. by destruct ls.
Qed.

Lemma parseLine_opens st line :
  opensBlock line = true →
  parseLine st line =
    {| blocks := fillBlock (blockName st) (cacheList st) (blocks st);
       blockName := blockNameOf line;
       cacheList := [line] |}.
Proof.
  unfold opensBlock, parseLine, blockNameOf.
  by destruct (getBlockName line) as [[|c n]|].
Qed.

Lemma parseLine_plain st line :
  opensBlock line = false →
  parseLine st line =
    {| blocks := blocks st; blockName := blockName st;
       cacheList := cacheList st ++ [line] |}.
Proof.
  unfold opensBlock, parseLine.
  by destruct (getBlockName line) as [[|c n]|].
Qed.

Lemma fold_parseLine_plain body st :
  Forall (λ l, opensBlock l = false) body →
  fold_left parseLine body st =
    {| blocks := blocks st; blockName := blockName st;
       cacheList := cacheList st ++ body |}.
Proof.
  revert st. induction body as [|l body IH]; intros st Hb.
  - rewrite app_nil_r. by destruct st.
  - apply Forall_cons in Hb as [Hl Hb]. simpl fold_left.
    rewrite (parseLine_plain _ _ Hl), (IH _ Hb). simpl.
    by rewrite <- app_assoc.
Qed.

Lemma lookup_setProperty_ne name k text (b : gmap jsstring jsstring) :
  k ≠ name → setProperty name text b !! k = b !! k.
Proof.
  intros Hk. unfold setProperty. destruct (eqb name (js "__proto__")); [done|].
  by apply lookup_insert_ne.
Qed.

Lemma lookup_fillBlock_ne name k lines (b : gmap jsstring jsstring) :
  k ≠ name → fillBlock name lines b !! k = b !! k.
Proof.
  intros Hk. destruct lines as [|l ls]; [done|]. by apply lookup_setProperty_ne.
Qed.

Lemma lookup_fillBlock_eq k l body (b : gmap jsstring jsstring) :
  k ≠ js "style" → k ≠ js "__proto__" →
  fillBlock k (l :: body) b !! k = Some (join [10%N] body).
Proof.
  intros Hs Hp. unfold fillBlock, setProperty, eqb.
  rewrite !bool_decide_eq_false_2 by done. apply lookup_insert_eq.
Qed.

Lemma lookup_fillBlock_same k l body (b : gmap jsstring jsstring) :
  k ≠ js "__proto__" →
  fillBlock k (l :: body) b !! k = fillBlock k (l :: body) ∅ !! k.
Proof.
  intros Hp. unfold fillBlock, setProperty, eqb.
  rewrite !(bool_decide_eq_false_2 (k = js "__proto__")) by done.
  by rewrite !lookup_insert_eq.
Qed.

(** Later lines that open blocks under other names leave a block alone. *)
Lemma finish_fold_lookup_other k rest st :
  k ≠ blockName st →
  Forall (λ l, opensBlock l = true → blockNameOf l ≠ k) rest →
  finish (fold_left parseLine rest st) !! k = blocks st !! k.
Proof.
  revert st. induction rest as [|l rest IH]; intros st Hk Hrest.
  - simpl. unfold finish. by apply lookup_fillBlock_ne.
  - apply Forall_cons in Hrest as [Hl Hrest]. simpl fold_left.
    destruct (opensBlock l) eqn:El.
    + rewrite (parseLine_opens _ _ El), IH; simpl.
      * by apply lookup_fillBlock_ne.
      * intros Heq. by apply Hl.
      * done.
    + rewrite (parseLine_plain _ _ El), IH; simpl; done.
Qed.

End ParserExtras.

(** X7. A text in which no line opens a block gives one block, under the empty
    name: the text after its first line. *)
Theorem parseBlocks_plain (md : jsstring) :
  Forall (λ l, opensBlock l = false) (split 10 md) →
  parseBlocks md = {[ [] := join [10%N] (tail (split 10 md)) ]}.
Proof.
  intros Hp. unfold parseBlocks. rewrite (fold_parseLine_plain _ _ Hp). simpl.
  destruct (split 10 md) as [|l ls] eqn:E; [by apply split_cons_ne in E|].
  simpl. unfold setProperty, eqb. rewrite bool_decide_eq_false_2 by done.
  by rewrite insert_empty.
Qed.

Lemma parseBlocks_plain_witness :
  parseBlocks (js "title" ++ [10%N] ++ js "text")
  = {[ [] := join [10%N] (tail (split 10 (js "title" ++ [10%N] ++ js "text"))) ]}.
Proof.
  apply (parseBlocks_plain (js "title" ++ [10%N] ++ js "text")).
  vm_compute. repeat constructor.
Defined.

(** A block that no later block replaces is filled from its own lines. *)
Lemma parseBlocks_block_lookup (md : jsstring) (pre : list jsstring) (h : jsstring)
    (body rest : list jsstring) :
  split 10 md = pre ++ [h] ++ body ++ rest →
  opensBlock h = true →
  blockNameOf h ≠ js "__proto__" →
  Forall (λ l, opensBlock l = false) body →
  match rest with [] => True | r :: _ => opensBlock r = true end →
  Forall (λ l, opensBlock l = true → blockNameOf l ≠ blockNameOf h) rest →
  parseBlocks md !! blockNameOf h
  = fillBlock (blockNameOf h) (h :: body) ∅ !! blockNameOf h.
Proof.
  intros Hmd Hh Hp Hbody Hr Hrest. unfold parseBlocks. rewrite Hmd.
  change ([h] ++ body ++ rest) with (h :: (body ++ rest)).
  rewrite fold_left_app.
  set (st0 := fold_left parseLine pre _).
  change (fold_left parseLine (h :: (body ++ rest)) st0)
    with (fold_left parseLine (body ++ rest) (parseLine st0 h)).
  rewrite fold_left_app, (parseLine_opens _ _ Hh), (fold_parseLine_plain _ _ Hbody).
  cbn [blocks blockName cacheList app].
  set (st2 := {| blocks := _; blockName := blockNameOf h; cacheList := h :: body |}).
  change (finish (fold_left parseLine rest st2) !! blockNameOf h
          = fillBlock (blockNameOf h) (h :: body) ∅ !! blockNameOf h).
  assert (finish st2 !! blockNameOf h
          = fillBlock (blockNameOf h) (h :: body) ∅ !! blockNameOf h) as Hst2.
  { unfold finish, st2. simpl. by apply lookup_fillBlock_same. }
  destruct rest as [|r rest]; [done|].
  apply Forall_cons in Hrest as [Hr1 Hrest]. simpl fold_left.
  rewrite (parseLine_opens _ _ Hr), finish_fold_lookup_other; simpl.
  - exact Hst2.
  - intros Heq. by apply Hr1.
  - done.
Qed.

(** X8. The text of a block is what stands between its opening line and the
    next opening line, when no later block has the same name. *)
Theorem parseBlocks_block_body (md : jsstring) (pre : list jsstring) (h : jsstring)
    (body rest : list jsstring) :
  split 10 md = pre ++ [h] ++ body ++ rest →
  opensBlock h = true →
  blockNameOf h ≠ js "style" → blockNameOf h ≠ js "__proto__" →
  Forall (λ l, opensBlock l = false) body →
  match rest with [] => True | r :: _ => opensBlock r = true end →
  Forall (λ l, opensBlock l = true → blockNameOf l ≠ blockNameOf h) rest →
  parseBlocks md !! blockNameOf h = Some (join [10%N] body).
Proof.
  intros Hmd Hh Hs Hp Hbody Hr Hrest.
  rewrite (parseBlocks_block_lookup md pre h body rest) by done.
  by apply lookup_fillBlock_eq.
Qed.

Lemma parseBlocks_block_body_witness :
  parseBlocks example_md !! js "en-US" = Some (join [10%N] [js "Hello"; []]).
Proof.
  apply (parseBlocks_block_body example_md [] (js "## en-US") [js "Hello"; []]
           [js "## zh-CN"; [20320%N; 22909%N]; []; js "```css"; js ".a{color:red}";
            js "```"]).
  - reflexivity.
  - reflexivity.
  - by vm_compute.
  - by vm_compute.
  - repeat constructor.
  - reflexivity.
  - repeat constructor; by vm_compute.
Defined.

Section ParserKeys.
Implicit Types (st : ParseState) (line name k text l s : jsstring) (lines body rest : list jsstring).

Lemma dom_fillBlock_inv name k lines (b : gmap jsstring jsstring) :
  k ∈ dom (fillBlock name lines b) → k = name ∨ k ∈ dom b.
Proof.
  destruct lines as [|l ls]; [by right|].
  unfold fillBlock, setProperty. destruct (eqb name (js "__proto__")); [by right|].
  rewrite dom_insert_L. set_solver.
Qed.

Lemma finish_fold_keys (Q : jsstring → Prop) rest st :
  (∀ l, l ∈ rest → opensBlock l = true → Q (blockNameOf l)) →
  (∀ k, k ∈ dom (blocks st) → Q k) → Q (blockName st) →
  ∀ k, k ∈ dom (finish (fold_left parseLine rest st)) → Q k.
Proof.
  revert st. induction rest as [|l rest IH]; intros st Hrest Hb Hn k.
  - simpl. unfold finish. intros [->|Hk]%dom_fillBlock_inv; auto.
  - simpl fold_left. apply IH.
    + intros l' Hl'. apply Hrest. by right.
    + destruct (opensBlock l) eqn:El.
      * rewrite (parseLine_opens _ _ El). simpl.
        intros k' [->|Hk']%dom_fillBlock_inv; auto.
      * rewrite (parseLine_plain _ _ El). simpl. done.
    + destruct (opensBlock l) eqn:El.
      * rewrite (parseLine_opens _ _ El). simpl. apply Hrest; [by left|done].
      * rewrite (parseLine_plain _ _ El). simpl. done.
Qed.

Lemma parseBlocks_keys_ind (Q : jsstring → Prop) (md : jsstring) :
  Q [] →
  (∀ l, l ∈ split 10 md → opensBlock l = true → Q (blockNameOf l)) →
  ∀ k, k ∈ dom (parseBlocks md) → Q k.
Proof.
  intros Hnil Hl k Hk.
  apply (finish_fold_keys Q (split 10 md)
           {| blocks := ∅; blockName := []; cacheList := [] |}); done.
Qed.

Lemma trimStart_head s :
  match trimStart s with [] => True | c :: _ => isSpace c = false end.
Proof.
  induction s as [|c s IH]; [done|]. simpl.
  destruct (isSpace c) eqn:E; [done|]. simpl. done.
Qed.

Lemma trimStart_fixed c s : isSpace c = false → trimStart (c :: s) = c :: s.
Proof. intros E. simpl. by rewrite E. Qed.

Lemma trimStart_idemp s : trimStart (trimStart s) = trimStart s.
Proof.
  pose proof (trimStart_head s) as H.
  destruct (trimStart s) as [|c u]; [done|]. by apply trimStart_fixed.
Qed.

Lemma trimStart_suffix s : ∃ sp, s = sp ++ trimStart s.
Proof.
  induction s as [|c s [sp IH]]; [by exists []|]. simpl.
  destruct (isSpace c); [|by exists []].
  exists (c :: sp). simpl. by rewrite <- IH.
Qed.

Lemma trimEnd_prefix s : ∃ sp, s = trimEnd s ++ sp.
Proof.
  destruct (trimStart_suffix (rev s)) as [sp Hsp]. exists (rev sp).
  unfold trimEnd. by rewrite <- rev_app_distr, <- Hsp, rev_involutive.
Qed.

(** Trimming a trimmed text changes nothing. *)
Lemma trim_idemp s : trim (trim s) = trim s.
Proof.
  unfold trim. set (a := trimStart s).
  assert (trimStart (trimEnd a) = trimEnd a) as ->.
  { destruct (trimEnd_prefix a) as [sp Ha].
    destruct (trimEnd a) as [|c u] eqn:E; [done|].
    apply trimStart_fixed. pose proof (trimStart_head s) as Hh.
    fold a in Hh. rewrite Ha in Hh. done. }
  unfold trimEnd. by rewrite rev_involutive, trimStart_idemp.
Qed.

End ParserKeys.

(** X9. Every name in the result is the empty name or the name of a line of
    the text that opens a block. *)
Theorem parseBlocks_keys (md k : jsstring) :
  k ∈ dom (parseBlocks md) →
  k = [] ∨ ∃ l, l ∈ split 10 md ∧ opensBlock l = true ∧ k = blockNameOf l.
Proof.
  apply (parseBlocks_keys_ind
           (λ k, k = [] ∨ ∃ l, l ∈ split 10 md ∧ opensBlock l = true ∧ k = blockNameOf l)).
  - by left.
  - intros l Hl Ho. right. by exists l.
Qed.

Lemma parseBlocks_keys_witness :
  js "zh-CN" = [] ∨ ∃ l, l ∈ split 10 example_md ∧ opensBlock l = true
                        ∧ js "zh-CN" = blockNameOf l.
Proof.
  apply (parseBlocks_keys example_md (js "zh-CN")).
  apply elem_of_dom. vm_compute. by eexists.
Defined.

(** X10. No name in the result starts or ends with white space. *)
Theorem parseBlocks_keys_trimmed (md k : jsstring) :
  k ∈ dom (parseBlocks md) → trim k = k.
Proof.
  apply (parseBlocks_keys_ind (λ k, trim k = k)); [done|].
  intros l _ _. unfold blockNameOf, getBlockName.
  destruct (startsWith l (js "## ")); simpl; [apply trim_idemp|].
  by destruct (_ || _).
Qed.

Lemma parseBlocks_keys_trimmed_witness : trim (js "zh-CN") = js "zh-CN".
Proof.
  apply (parseBlocks_keys_trimmed example_md (js "zh-CN")).
  apply elem_of_dom. vm_compute. by eexists.
Defined.

Section RemoveAll.
Implicit Types (m : jsstring → option nat) (a b x s : jsstring).

Lemma removeAllFrom_skip m x b :
  removeAllFrom m (List.length x) (x ++ b) = removeAllFrom m O b.
Proof. induction x as [|c x IH]; [by destruct b|]. simpl. apply IH. Qed.

Lemma removeAll_match m c x b :
  m (c :: x ++ b) = Some (S (List.length x)) →
  removeAll m ((c :: x) ++ b) = removeAll m b.
Proof.
  intros Hm. unfold removeAll. simpl. rewrite Hm. apply removeAllFrom_skip.
Qed.

Lemma removeAll_no_match m a b :
  Forall (λ c, ∀ t, m (c :: t) = None) a →
  removeAll m (a ++ b) = a ++ removeAll m b.
Proof.
  unfold removeAll. induction a as [|c a IH]; [done|].
  intros [Hc Ha]%Forall_cons. simpl. rewrite Hc. f_equal. by apply IH.
Qed.

Lemma re_style_tag_at_head c t : c ≠ 60%N → re_style_tag_at (c :: t) = None.
Proof.
  intros Hc. unfold re_style_tag_at.
  change (js "</style>") with (60%N :: js "/style>").
  change (js "<style>") with (60%N :: js "style>").
  cbn [startsWith]. by destruct (N.eqb_spec 60 c) as [<-|_].
Qed.

Lemma re_css_fence_at_head c t : c ≠ 96%N → re_css_fence_at (c :: t) = None.
Proof.
  intros Hc. unfold re_css_fence_at.
  change (js "```") with (96%N :: js "``").
  cbn [startsWith]. by destruct (N.eqb_spec 96 c) as [<-|_].
Qed.

Lemma join_cons (sep p : jsstring) (ps : list jsstring) :
  ps ≠ [] → join sep (p :: ps) = p ++ sep ++ join sep ps.
Proof. by destruct ps. Qed.

Lemma join_snoc (sep : jsstring) (ls : list jsstring) (z : jsstring) :
  join sep (ls ++ [z]) = flat_map (λ l, l ++ sep) ls ++ z.
Proof.
  induction ls as [|l ls IH]; [done|].
  change ((l :: ls) ++ [z]) with (l :: (ls ++ [z])).
  rewrite join_cons, IH by (by destruct ls). simpl.
  by rewrite <- !app_assoc.
Qed.

End RemoveAll.

(** X11. A style block between a [<style>] line and a [</style>] line, with
    lines that hold neither [<] nor a backtick, is stored as a line feed
    followed by each of these lines and its line feed. *)
Theorem parseBlocks_style_tags (md : jsstring) (pre css rest : list jsstring) :
  split 10 md = pre ++ [js "<style>"] ++ (css ++ [js "</style>"]) ++ rest →
  Forall (λ l, opensBlock l = false ∧ Forall (λ c, c ≠ 60%N ∧ c ≠ 96%N) l) css →
  match rest with [] => True | r :: _ => opensBlock r = true end →
  Forall (λ l, opensBlock l = true → blockNameOf l ≠ js "style") rest →
  parseBlocks md !! js "style"
  = Some ([10%N] ++ flat_map (λ l, l ++ [10%N]) css).
Proof.
  intros Hmd Hcss Hr Hrest.
  change (js "style") with (blockNameOf (js "<style>")).
  rewrite (parseBlocks_block_lookup md pre (js "<style>") (css ++ [js "</style>"]) rest);
    try done.
  2:{ apply Forall_app. split; [|by repeat constructor].
      eapply Forall_impl; [exact Hcss|]. by intros l [? _]. }
  change (blockNameOf (js "<style>")) with (js "style").
  unfold fillBlock, setProperty.
  replace (eqb (js "style") (js "__proto__")) with false by done.
  replace (eqb (js "style") (js "style")) with true by done.
  rewrite lookup_insert_eq. f_equal.
  change (js "<style>" :: css ++ [js "</style>"])
    with ((js "<style>" :: css) ++ [js "</style>"]).
  rewrite join_snoc. cbn [flat_map].
  set (M := flat_map (λ l, l ++ [10%N]) css).
  assert (Forall (λ c, c ≠ 60%N ∧ c ≠ 96%N) ([10%N] ++ M)) as Hclean.
  { apply Forall_app. split; [by repeat constructor|].
    unfold M. clear -Hcss. induction Hcss as [|l ls [_ Hl] _ IH]; [constructor|].
    simpl. rewrite !Forall_app. split_and!; [done|by repeat constructor|done]. }
  rewrite <- !app_assoc.
  change (js "<style>" ++ [10%N] ++ M ++ js "</style>")
    with ((60%N :: js "style>") ++ ([10%N] ++ M ++ js "</style>")).
  rewrite removeAll_match by reflexivity.
  rewrite (app_assoc [10%N] M), removeAll_no_match.
  2:{ eapply Forall_impl; [exact Hclean|]. intros c [Hc _] t.
      by apply re_style_tag_at_head. }
  change (removeAll re_style_tag_at (js "</style>")) with (@nil N).
  rewrite removeAll_no_match.
  2:{ eapply Forall_impl; [exact Hclean|]. intros c [_ Hc] t.
      by apply re_css_fence_at_head. }
  by rewrite app_nil_r.
Qed.

Lemma parseBlocks_style_tags_witness :
  parseBlocks (js "<style>" ++ [10%N] ++ js ".a{}" ++ [10%N] ++ js "</style>")
  !! js "style"
  = Some ([10%N] ++ flat_map (λ l, l ++ [10%N]) [js ".a{}"]).
Proof.
  apply (parseBlocks_style_tags _ [] [js ".a{}"] []).
  - reflexivity.
  - repeat constructor; by vm_compute.
  - exact I.
  - constructor.
Defined.

(** *** The previewer props *)

Section PathFacts.
Implicit Types (a b s stem ext rep : jsstring).

Lemma split_no_sep (c : N) s : c ∉ s → split c s = [s].
Proof.
  induction s as [|x s IH]; [done|].
  rewrite not_elem_of_cons. intros [Hx Hs]. simpl.
  destruct (N.eqb_spec x c) as [->|_]; [done|]. by rewrite IH.
Qed.

Lemma split_app_sep (c : N) a b : split c (a ++ c :: b) = split c a ++ split c b.
Proof.
  induction a as [|x a IH]; simpl.
  - by rewrite N.eqb_refl.
  - destruct (x =? c)%N; rewrite IH; [done|].
    destruct (split c a) as [|l ls] eqn:E; [by apply split_cons_ne in E|]. done.
Qed.

Lemma replaceExt_cons c s rep :
  replaceExt (c :: s) rep = if re_ext_at (c :: s) then rep else c :: replaceExt s rep.
Proof. reflexivity. Qed.

Lemma replaceExt_none s rep :
  Forall (λ t, re_ext_at t = false) (tails s) → replaceExt s rep = s.
Proof.
  induction s as [|c s IH]; [done|].
  change (tails (c :: s)) with ((c :: s) :: tails s).
  intros [Hc Hs]%Forall_cons. rewrite replaceExt_cons, Hc. f_equal. by apply IH.
Qed.

Lemma forallb_isWord_dot s : 46%N ∈ s → forallb isWord s = false.
Proof.
  intros Hin. destruct (forallb isWord s) eqn:E; [|done].
  rewrite forallb_forall in E. apply list_elem_of_In in Hin.
  by specialize (E 46%N Hin).
Qed.

Lemma re_ext_at_stem c stem ext :
  re_ext_at (c :: stem ++ [46%N] ++ ext) = false.
Proof.
  unfold re_ext_at.
  destruct (stem ++ [46%N] ++ ext) as [|d u] eqn:E; [by destruct stem|].
  rewrite forallb_isWord_dot; [apply andb_false_r|].
  rewrite <- E. set_solver.
Qed.

Lemma re_ext_at_ext d ext :
  forallb isWord (d :: ext) = true → re_ext_at ([46%N] ++ d :: ext) = true.
Proof. intros Hw. unfold re_ext_at. cbn [app]. by rewrite Hw. Qed.

End PathFacts.

(** X12. The extension of a file path is replaced: the last dot and the word
    characters after it give way to the new extension. *)
Theorem replaceExt_extension (stem : jsstring) (d : N) (ext rep : jsstring) :
  forallb isWord (d :: ext) = true →
  replaceExt (stem ++ [46%N] ++ d :: ext) rep = stem ++ rep.
Proof.
  intros Hw. induction stem as [|c stem IH].
  - change ([] ++ [46%N] ++ d :: ext) with (46%N :: d :: ext).
    rewrite replaceExt_cons.
    change (46%N :: d :: ext) with ([46%N] ++ d :: ext).
    by rewrite (re_ext_at_ext d ext Hw).
  - change ((c :: stem) ++ [46%N] ++ d :: ext) with (c :: stem ++ [46%N] ++ d :: ext).
    rewrite replaceExt_cons, re_ext_at_stem. by rewrite IH.
Qed.

Lemma replaceExt_extension_witness :
  replaceExt (js "/demo/basic.tsx") (js ".md") = js "/demo/basic.md".
Proof.
  apply (replaceExt_extension (js "/demo/basic") 116%N (js "sx") (js ".md")).
  reflexivity.
Defined.

Lemma replaceExt_no_dot (s rep : jsstring) : 46%N ∉ s → replaceExt s rep = s.
Proof.
  intros Hs. apply replaceExt_none. apply Forall_forall.
  intros t [u ->]%list_elem_of_In%tails_suffix.
  destruct t as [|c [|d w]]; try done. unfold re_ext_at.
  destruct (N.eqb_spec c 46) as [->|_]; [|done]. set_solver.
Qed.

(** X13. A path without a dot is left alone, whatever it holds.  A path
    whose last dot is followed by nothing, or by something that is not only
    letters, digits and underscores, is left alone too. *)
Theorem replaceExt_no_extension (stem rest rep : jsstring) :
  46%N ∉ rest →
  replaceExt rest rep = rest
  ∧ (rest = [] ∨ forallb isWord rest = false →
     replaceExt (stem ++ [46%N] ++ rest) rep = stem ++ [46%N] ++ rest).
Proof.
  intros Hdot. split; [by apply replaceExt_no_dot|]. intros Hrest.
  induction stem as [|c stem IH].
  - change ([] ++ [46%N] ++ rest) with (46%N :: rest).
    rewrite replaceExt_cons, replaceExt_no_dot by done.
    replace (re_ext_at (46%N :: rest)) with false; [done|].
    destruct Hrest as [->|Hw]; [done|].
    destruct rest as [|d w]; [done|]. unfold re_ext_at. by rewrite Hw.
  - change ((c :: stem) ++ [46%N] ++ rest) with (c :: stem ++ [46%N] ++ rest).
    rewrite replaceExt_cons, re_ext_at_stem. by rewrite IH.
Qed.

Lemma replaceExt_no_extension_witness :
  replaceExt (js "README") (js ".md") = js "README"
  ∧ replaceExt (js "/demo/basic.a-b") (js ".md") = js "/demo/basic.a-b"
  ∧ replaceExt (js "/demo/basic.") (js ".md") = js "/demo/basic.".
Proof.
  split_and!.
  - apply (replaceExt_no_extension [] (js "README") (js ".md")). compute_done.
  - apply (proj2 (replaceExt_no_extension (js "/demo/basic") (js "a-b") (js ".md")
                    ltac:(compute_done))).
    right. reflexivity.
  - apply (proj2 (replaceExt_no_extension (js "/demo/basic") [] (js ".md")
                    ltac:(compute_done))).
    left. reflexivity.
Defined.

(** X14. The locale of a document is the piece of its path between the last
    two dots. *)
Theorem localeOfPath_between_dots (base loc ext : jsstring) :
  46%N ∉ loc → 46%N ∉ ext →
  localeOfPath (base ++ [46%N] ++ loc ++ [46%N] ++ ext) = Some loc.
Proof.
  intros Hloc Hext. unfold localeOfPath.
  change (base ++ [46%N] ++ loc ++ [46%N] ++ ext)
    with (base ++ 46%N :: (loc ++ 46%N :: ext)).
  rewrite !split_app_sep, (split_no_sep _ loc), (split_no_sep _ ext) by done.
  unfold at_index. rewrite !length_app. simpl List.length.
  destruct (_ <? 0) eqn:E; [apply Z.ltb_lt in E; lia|].
  replace (Z.to_nat _) with (List.length (split 46 base) + 0)%nat by lia.
  by rewrite lookup_app_r, Nat.add_comm, Nat.add_sub by lia.
Qed.

Lemma localeOfPath_between_dots_witness :
  localeOfPath (js "/docs/bubble.zh-CN.md") = Some (js "zh-CN").
Proof.
  apply (localeOfPath_between_dots (js "/docs/bubble") (js "zh-CN") (js "md"));
    compute_done.
Defined.

(** X15. A path without a dot gives no locale, and a path with one dot gives
    what stands before the dot. *)
Theorem localeOfPath_few_dots (a b : jsstring) :
  46%N ∉ a → 46%N ∉ b →
  localeOfPath a = None ∧ localeOfPath (a ++ [46%N] ++ b) = Some a.
Proof.
  intros Ha Hb. unfold localeOfPath. split; [by rewrite split_no_sep|].
  change (a ++ [46%N] ++ b) with (a ++ 46%N :: b).
  by rewrite split_app_sep, !split_no_sep.
Qed.

Lemma localeOfPath_few_dots_witness :
  localeOfPath (js "README") = None
  ∧ localeOfPath (js "README.md") = Some (js "README").
Proof.
  apply (localeOfPath_few_dots (js "README") (js "md")); compute_done.
Defined.

(** X16. For an external demo whose companion markdown is on disk, the
    description is the text of the block named after the locale of the
    document. *)
Theorem generatePreviewerProps_description `{Previewer} (props : PreviewerProps)
    (fileAbsPath mdAbsPath md : jsstring) (pre : list jsstring) (h : jsstring)
    (body rest : list jsstring) :
  disk !! replaceExt fileAbsPath (js ".md") = Some md →
  localeOfPath mdAbsPath = Some (blockNameOf h) →
  split 10 md = pre ++ [h] ++ body ++ rest →
  opensBlock h = true →
  blockNameOf h ≠ js "style" → blockNameOf h ≠ js "__proto__" →
  Forall (λ l, opensBlock l = false) body →
  match rest with [] => True | r :: _ => opensBlock r = true end →
  Forall (λ l, opensBlock l = true → blockNameOf l ≠ blockNameOf h) rest →
  props_description (generatePreviewerProps props (External fileAbsPath mdAbsPath))
  = Str (join [10%N] body).
Proof.
  intros Hdisk Hloc Hmd Hh Hs Hp Hbody Hr Hrest.
  assert (md ≠ []) as Hne.
  { intros ->. destruct pre as [|p pre]; simpl in Hmd.
    - injection Hmd as <- _. done.
    - injection Hmd as _ Hmd. by destruct pre. }
  unfold generatePreviewerProps, readOrEmpty. rewrite Hdisk, Hloc. simpl.
  destruct md as [|c md']; [done|]. simpl. unfold getProperty.
  by rewrite (parseBlocks_block_body _ pre h body rest).
Qed.

Lemma generatePreviewerProps_description_witness :
  props_description
    (generatePreviewerProps (H := demoPreviewer) emptyProps
       (External (js "/demo/basic.tsx") (js "/docs/bubble.en-US.md")))
  = Str (join [10%N] [js "Hello"]).
Proof.
  apply (generatePreviewerProps_description (H := demoPreviewer) emptyProps
           (js "/demo/basic.tsx") (js "/docs/bubble.en-US.md")
           (js "## zh-CN" ++ [10%N] ++ [20320%N; 22909%N] ++ [10%N]
            ++ js "## en-US" ++ [10%N] ++ js "Hello")
           [js "## zh-CN"; [20320%N; 22909%N]] (js "## en-US") [js "Hello"] []).
  - by vm_compute.
  - by vm_compute.
  - reflexivity.
  - reflexivity.
  - by vm_compute.
  - by vm_compute.
  - repeat constructor.
  - exact I.
  - constructor.
Defined.

(** *** The export step, further *)

Section AddsFiles.
Context `{Host}.
Implicit Types (w : World) (ws : list (jsstring * jsstring)).

Lemma addsFiles_refl w : addsFiles w w [].
Proof.
  split_and!; [by rewrite app_nil_r|constructor| |done].
  intros p c Hin. by apply elem_of_nil in Hin.
Qed.

Lemma addsFiles_trans w1 w2 w3 ws1 ws2 :
  addsFiles w1 w2 ws1 → addsFiles w2 w3 ws2 → addsFiles w1 w3 (ws1 ++ ws2).
Proof.
  intros (He1 & Hd1 & Hin1 & Hout1) (He2 & Hd2 & Hin2 & Hout2).
  assert (∀ p, p ∈ ws1.*1 → p ∉ ws2.*1) as Hdisj.
  { intros p [[p1 c1] [-> Hc1]]%list_elem_of_fmap [[p2 c2] [Hp Hc2]]%list_elem_of_fmap.
    simpl in *. subst p2.
    destruct (Hin1 _ _ Hc1) as [_ Hs]. destruct (Hin2 _ _ Hc2) as [Hn _]. congruence. }
  split_and!.
  - by rewrite He2, He1, <- app_assoc.
  - rewrite fmap_app. apply NoDup_app. split_and!; done.
  - intros p c [Hc|Hc]%elem_of_app.
    + destruct (Hin1 _ _ Hc) as [Hn Hs]. split; [done|].
      rewrite Hout2; [done|]. apply Hdisj. apply list_elem_of_fmap. by exists (p, c).
    + destruct (Hin2 _ _ Hc) as [Hn Hs]. split; [|done].
      rewrite <- Hout1; [done|]. intros Hp1. eapply Hdisj; [done|].
      apply list_elem_of_fmap. by exists (p, c).
  - intros p. rewrite fmap_app, not_elem_of_app. intros [Hp1 Hp2].
    by rewrite Hout2, Hout1.
Qed.

Lemma addsFiles_logger_event msg w : addsFiles w (logger_event msg w).2 [].
Proof.
  split_and!; simpl.
  - by rewrite writes_app, !app_nil_r.
  - constructor.
  - intros p c Hin. by apply elem_of_nil in Hin.
  - done.
Qed.

Lemma addsFiles_writeCSSFile key hashKey cssString w :
  ∃ ws, addsFiles w (writeCSSFile key hashKey cssString w).2 ws.
Proof.
  destruct (files w !! path_join absOutputPath (cssFileName key hashKey)) as [old|] eqn:E.
  - exists []. rewrite writeCSSFile_found by (by rewrite E). apply addsFiles_refl.
  - exists [(path_join absOutputPath (cssFileName key hashKey), cssString)].
    rewrite (writeCSSFile_missing _ _ _ w E). simpl. split_and!; simpl.
    + by rewrite !writes_app, app_nil_r.
    + repeat constructor. by intros ?%elem_of_nil.
    + intros p c [= -> ->]%list_elem_of_singleton. split; [done|apply lookup_insert_eq].
    + intros p Hp. apply lookup_insert_ne. set_solver.
Qed.

(** One round of [forEach]: the log line, the file, the link. *)
Lemma forEachStyle_cons filePath s styles content w :
  forEachStyle filePath (s :: styles) content w =
    let msg := filePath ++ js " include [,] " ++ style_key s ++ js " "
               ++ js (pretty (List.length (style_ids s))) ++ js " styles" in
    let w1 := (logger_event msg w).2 in
    let r := writeCSSFile (style_key s) (join [] (style_ids s)) (style_css s) w1 in
    forEachStyle filePath styles (addLinkStyle content r.1 false) r.2.
Proof.
  cbv zeta.
  set (msg := filePath ++ js " include [,] " ++ style_key s ++ js " "
              ++ js (pretty (List.length (style_ids s))) ++ js " styles").
  change (forEachStyle filePath (s :: styles) content w) with
    (bind (logger_event msg)
       (λ _, bind (writeCSSFile (style_key s) (join [] (style_ids s)) (style_css s))
               (λ cssFile, forEachStyle filePath styles
                             (addLinkStyle content cssFile false))) w).
  clearbody msg. unfold bind, logger_event. cbn [snd].
  destruct (writeCSSFile _ _ _ _) as [cssFile w2]. reflexivity.
Qed.

Lemma addsFiles_forEachStyle filePath styles content w :
  ∃ ws, addsFiles w (forEachStyle filePath styles content w).2 ws.
Proof.
  revert content w. induction styles as [|s styles IH]; intros content w.
  { exists []. apply addsFiles_refl. }
  rewrite forEachStyle_cons. cbv zeta.
  set (msg := filePath ++ js " include [,] " ++ style_key s ++ js " "
              ++ js (pretty (List.length (style_ids s))) ++ js " styles").
  clearbody msg.
  pose proof (addsFiles_logger_event msg w) as H1.
  destruct (addsFiles_writeCSSFile (style_key s) (join [] (style_ids s)) (style_css s)
              (logger_event msg w).2) as [ws2 H2].
  destruct (IH (addLinkStyle content
                  (writeCSSFile (style_key s) (join [] (style_ids s)) (style_css s)
                     (logger_event msg w).2).1 false)
              (writeCSSFile (style_key s) (join [] (style_ids s)) (style_css s)
                 (logger_event msg w).2).2) as [ws3 H3].
  exists ([] ++ ws2 ++ ws3).
  eapply addsFiles_trans; [exact H1|]. eapply addsFiles_trans; [exact H2|exact H3].
Qed.

Lemma addsFiles_processFile file w :
  ∃ ws, addsFiles w (processFile file w).2 ws.
Proof.
  unfold processFile, bind.
  destruct (addsFiles_forEachStyle (path file) (extractEmotionStyle (content file))
              (content file) w) as [ws Hws].
  destruct (forEachStyle _ _ _ w) as [c w1]. by exists ws.
Qed.

Lemma addsFiles_mapEff_processFile (l : list File) w :
  ∃ ws, addsFiles w (mapEff processFile l w).2 ws.
Proof.
  revert w. induction l as [|f l IH]; intros w.
  { exists []. apply addsFiles_refl. }
  destruct (mapEff_cons processFile f l w) as [-> _].
  destruct (addsFiles_processFile f w) as [ws1 H1].
  destruct (IH (processFile f w).2) as [ws2 H2].
  exists (ws1 ++ ws2). by eapply addsFiles_trans.
Qed.

Lemma forEachStyle_no_head filePath styles content w :
  includes content (js "</head>") = false →
  (forEachStyle filePath styles content w).1 = content.
Proof.
  intros Hc. revert w.
  induction styles as [|s styles IH]; intros w; [done|].
  rewrite forEachStyle_cons. cbv zeta.
  replace (addLinkStyle content _ false) with content; [apply IH|].
  unfold addLinkStyle. apply includes_false in Hc. by rewrite replace_None.
Qed.

Lemma extractEmotionStyle_nil html :
  Forall (λ cache, css (extractCritical cache html) = []) getCacheList →
  extractEmotionStyle html = [].
Proof.
  unfold extractEmotionStyle. induction 1 as [|c cs Hc _ IH]; [done|].
  simpl. unfold extractOne at 1. by rewrite Hc.
Qed.

Lemma elem_of_linkElement cssFile :
  36%N ∉ publicPath ++ cssFile → 36%N ∉ linkElement cssFile.
Proof.
  intros Hp. unfold linkElement. rewrite !not_elem_of_app.
  split_and!; try done; by vm_compute; set_solver.
Qed.

End AddsFiles.

(** X17. The export step only adds files: every write goes to a path that held
    no file, no path is written twice, and the files that were in the output
    directory stay as they were. *)
Theorem modifyExportHTMLFiles_adds_files `{Host} (files0 : list File) (w : World) :
  let w' := (modifyExportHTMLFiles files0 w).2 in
  (∃ ws, addsFiles w w' ws)
  ∧ ∀ p, is_Some (files w !! p) → files w' !! p = files w !! p.
Proof.
  intros w'. destruct (addsFiles_mapEff_processFile
    (List.filter (λ f, negb (includes (path f) (js ":"))) files0) w) as [ws Hws].
  fold (modifyExportHTMLFiles files0) in Hws. fold w' in Hws.
  split; [by exists ws|]. intros p [c Hc].
  destruct Hws as (_ & _ & Hin & Hout). apply Hout.
  intros [[p' c'] [-> Hc']]%list_elem_of_fmap. simpl in *.
  destruct (Hin _ _ Hc') as [Hn _]. congruence.
Qed.

(** X18. A page without [</head>] comes out as it went in. *)
Theorem processFile_no_head `{Host} (file : File) (w : World) :
  includes (content file) (js "</head>") = false →
  (processFile file w).1 = file.
Proof.
  intros Hc. unfold processFile, bind.
  pose proof (forEachStyle_no_head (path file) (extractEmotionStyle (content file))
                (content file) w Hc) as Hf.
  destruct (forEachStyle _ _ _ w) as [c w1]. simpl in *. subst c. by destruct file.
Qed.

Lemma processFile_no_head_witness :
  (processFile (H := demoHost)
     {| path := js "/frag"; content := js "<body></body>" |} emptyWorld).1
  = {| path := js "/frag"; content := js "<body></body>" |}.
Proof.
  apply (processFile_no_head (H := demoHost)
           {| path := js "/frag"; content := js "<body></body>" |} emptyWorld).
  reflexivity.
Defined.

(** X19. A page for which no cache has critical CSS is left alone, and so are
    the output directory and the log. *)
Theorem processFile_no_styles `{Host} (file : File) (w : World) :
  Forall (λ cache, css (extractCritical cache (content file)) = []) getCacheList →
  processFile file w = (file, w).
Proof.
  intros Hc. unfold processFile. rewrite (extractEmotionStyle_nil _ Hc).
  simpl. unfold bind, ret. by destruct file.
Qed.

Lemma processFile_no_styles_witness :
  processFile (H := quietHost)
    {| path := js "/"; content := js "<head></head>" |} emptyWorld
  = ({| path := js "/"; content := js "<head></head>" |}, emptyWorld).
Proof.
  apply (processFile_no_styles (H := quietHost)
           {| path := js "/"; content := js "<head></head>" |} emptyWorld).
  repeat constructor.
Defined.

(** X20. When neither the public path nor the file name holds a dollar sign,
    the link element goes right before the first [</head>], or right after the
    first [<head>] in prepend mode, and the rest of the HTML stays. *)
Theorem addLinkStyle_inserts `{Host} (html cssFile : jsstring) (prepend : bool) (i : nat) :
  36%N ∉ publicPath ++ cssFile →
  search html (if prepend then js "<head>" else js "</head>") = Some i →
  addLinkStyle html cssFile prepend =
    if prepend
    then take i html ++ js "<head>" ++ linkElement cssFile ++ drop (i + 6) html
    else take i html ++ linkElement cssFile ++ js "</head>" ++ drop (i + 7) html.
Proof.
  intros Hd%elem_of_linkElement Hi. unfold addLinkStyle. fold publicPath.
  fold (linkElement cssFile). destruct prepend.
  - rewrite (replace_plain _ _ _ i Hi); [by rewrite <- !app_assoc|].
    rewrite not_elem_of_app. split; [by vm_compute; set_solver|done].
  - rewrite (replace_plain _ _ _ i Hi); [by rewrite <- !app_assoc|].
    rewrite not_elem_of_app. split; [done|by vm_compute; set_solver].
Qed.

Lemma addLinkStyle_inserts_witness :
  addLinkStyle (H := demoHost) (js "<head></head><p></head>") (js "a.css") false
  = take 6 (js "<head></head><p></head>")
    ++ linkElement (H := demoHost) (js "a.css") ++ js "</head>"
    ++ drop (6 + 7) (js "<head></head><p></head>").
Proof.
  apply (addLinkStyle_inserts (H := demoHost) (js "<head></head><p></head>")
           (js "a.css") false 6%nat).
  - compute_done.
  - reflexivity.
Defined.

(** *** Routes, theme and start script *)

(** X21. With both changelog files found, the table that comes back holds
    the two extra routes under their paths, each with its id, path,
    absolute path, parent and resolved file, whatever was under these keys
    before; every other route is as it was; and running the callback again
    changes nothing. *)
Theorem modifyRoutes_extra (resolve : jsstring → option jsstring)
    (routes : gmap jsstring IRoute) (cn en : jsstring) :
  resolve (js "../../../../CHANGELOG.zh-CN.md") = Some cn →
  resolve (js "../../../../CHANGELOG.en-US.md") = Some en →
  ∃ routes',
    modifyRoutes resolve routes = Some routes'
    ∧ routes' !! js "changelog-cn"
      = Some {| route_id := js "changelog-cn"; route_path := js "changelog-cn";
                route_absPath := js "/changelog-cn";
                route_parentId := js "DocLayout"; route_file := cn |}
    ∧ routes' !! js "changelog"
      = Some {| route_id := js "changelog"; route_path := js "changelog";
                route_absPath := js "/changelog";
                route_parentId := js "DocLayout"; route_file := en |}
    ∧ (∀ k, k ≠ js "changelog-cn" → k ≠ js "changelog" → routes' !! k = routes !! k)
    ∧ modifyRoutes resolve routes' = Some routes'.
Proof.
  intros Hcn Hen. unfold modifyRoutes, extraRoutesList. rewrite Hcn, Hen. simpl.
  eexists. split; [done|]. split_and!.
  - by rewrite lookup_insert_ne, lookup_insert_eq.
  - by rewrite lookup_insert_eq.
  - intros k H1 H2. by rewrite !lookup_insert_ne.
  - f_equal. apply map_eq. intros k.
    destruct (decide (k = js "changelog")) as [->|H1].
    { by rewrite !lookup_insert_eq. }
    destruct (decide (k = js "changelog-cn")) as [->|H2].
    { rewrite !(lookup_insert_ne _ (js "changelog")) by done.
      by rewrite !lookup_insert_eq. }
    by repeat rewrite lookup_insert_ne by done.
Qed.

Lemma modifyRoutes_extra_witness :
  let old := {| route_id := js "log"; route_path := js "changelog";
                route_absPath := js "/log"; route_parentId := js "Old";
                route_file := js "/old.md" |} in
  let home := {| route_id := js "index"; route_path := js "index";
                 route_absPath := js "/"; route_parentId := js "DocLayout";
                 route_file := js "/index.md" |} in
  let routes : gmap jsstring IRoute :=
    <[js "changelog" := old]> (<[js "index" := home]> ∅) in
  ∃ routes',
    modifyRoutes (λ p, Some (js "/repo/" ++ p)) routes = Some routes'
    ∧ routes' !! js "changelog"
      = Some {| route_id := js "changelog"; route_path := js "changelog";
                route_absPath := js "/changelog";
                route_parentId := js "DocLayout";
                route_file := js "/repo/../../../../CHANGELOG.en-US.md" |}
    ∧ routes' !! js "changelog-cn"
      = Some {| route_id := js "changelog-cn"; route_path := js "changelog-cn";
                route_absPath := js "/changelog-cn";
                route_parentId := js "DocLayout";
                route_file := js "/repo/../../../../CHANGELOG.zh-CN.md" |}
    ∧ routes' !! js "index" = Some home
    ∧ modifyRoutes (λ p, Some (js "/repo/" ++ p)) routes' = Some routes'.
Proof.
  intros old home routes.
  destruct (modifyRoutes_extra (λ p, Some (js "/repo/" ++ p)) routes
              (js "/repo/../../../../CHANGELOG.zh-CN.md")
              (js "/repo/../../../../CHANGELOG.en-US.md") eq_refl eq_refl)
    as (routes' & Hr & Hcn & Hen & Hother & Hidem).
  exists routes'. split_and!; try done.
  rewrite Hother by done. reflexivity.
Defined.

(** X22. The callback throws exactly when one of the changelog files cannot be
    resolved. *)
Theorem modifyRoutes_throws (resolve : jsstring → option jsstring)
    (routes : gmap jsstring IRoute) :
  modifyRoutes resolve routes = None
  ↔ resolve (js "../../../../CHANGELOG.zh-CN.md") = None
    ∨ resolve (js "../../../../CHANGELOG.en-US.md") = None.
Proof.
  unfold modifyRoutes, extraRoutesList.
  destruct (resolve (js "../../../../CHANGELOG.zh-CN.md")),
           (resolve (js "../../../../CHANGELOG.en-US.md")); simpl; naive_solver.
Qed.

Lemma getAlgorithm_cons (theme : jsstring) (themes : list jsstring) :
  getAlgorithm (theme :: themes) =
    (if eqb theme (js "dark") then [darkAlgorithm]
     else if eqb theme (js "compact") then [compactAlgorithm] else [])
    ++ getAlgorithm themes.
Proof.
  unfold getAlgorithm. cbn [map filterBoolean].
  destruct (eqb theme (js "dark")); [done|]. by destruct (eqb theme (js "compact")).
Qed.

Lemma elem_of_getAlgorithm (themes : list jsstring) (a : MappingAlgorithm) :
  a ∈ getAlgorithm themes ↔ algorithmName a ∈ themes.
Proof.
  induction themes as [|theme themes IH].
  { split; intros H; inversion H. }
  rewrite getAlgorithm_cons, elem_of_app, IH, elem_of_cons. unfold eqb.
  destruct (bool_decide_reflect (theme = js "dark")) as [->|Hd].
  - rewrite list_elem_of_singleton. destruct a; naive_solver.
  - destruct (bool_decide_reflect (theme = js "compact")) as [->|Hc].
    + rewrite list_elem_of_singleton. destruct a; naive_solver.
    + destruct a; simpl; split; intros [H|H]; auto;
        try (by apply elem_of_nil in H); congruence.
Qed.

(** X23. An algorithm is in the result exactly when its theme is in the list. *)
Theorem getAlgorithm_elem_of (themes : list jsstring) (a : MappingAlgorithm) :
  a ∈ getAlgorithm themes ↔ algorithmName a ∈ themes.
Proof. apply elem_of_getAlgorithm. Qed.

(** X24. The algorithms come in the order of the themes. *)
Theorem getAlgorithm_app (themes1 themes2 : list jsstring) :
  getAlgorithm (themes1 ++ themes2) = getAlgorithm themes1 ++ getAlgorithm themes2.
Proof.
  induction themes1 as [|theme themes1 IH]; [done|].
  change ((theme :: themes1) ++ themes2) with (theme :: (themes1 ++ themes2)).
  by rewrite !getAlgorithm_cons, IH, app_assoc.
Qed.

(** X25. The dark algorithm is used on the index pages and wherever the theme
    asks for it; the compact one only off the index pages. *)
Theorem themeConfig_algorithm (pathname : jsstring) (theme : list jsstring) :
  (darkAlgorithm ∈ algorithm (themeConfig pathname theme)
   ↔ isIndexPage pathname = true ∨ js "dark" ∈ theme)
  ∧ (compactAlgorithm ∈ algorithm (themeConfig pathname theme)
     ↔ isIndexPage pathname = false ∧ js "compact" ∈ theme).
Proof.
  unfold themeConfig. simpl. destruct (isIndexPage pathname).
  - split; [split; [by left|intros _; by apply list_elem_of_here]|].
    split; [|by intros [? _]].
    intros H%elem_of_getAlgorithm. simpl in H.
    apply list_elem_of_singleton in H. done.
  - rewrite !elem_of_getAlgorithm. simpl. naive_solver.
Qed.

(** X26. The memory limit is set exactly on machines with less than 8193
    megabytes. *)
Theorem setNodeOptions_threshold (totalmem : Z) (argv : list jsstring) :
  NODE_OPTIONS (setNodeOptions totalmem argv) = Some (js "--max-old-space-size=4096")
  ↔ totalmem < 8193 * 1024 * 1024.
Proof.
  unfold setNodeOptions, totalMemory. simpl.
  pose proof (Z.div_mod totalmem (1024 * 1024) ltac:(lia)) as Hd.
  pose proof (Z.mod_pos_bound totalmem (1024 * 1024) ltac:(lia)) as Hm.
  destruct (_ <=? 8192) eqn:E.
  - apply Z.leb_le in E. split; [lia|done].
  - apply Z.leb_gt in E. split; [done|lia].
Qed.
